(** * ui-diff-reviewer: the DOM structural diff

    A shallow embedding of [extractStructuralDifferences],
    [generateDiffSummary] and [extractDiff], and the properties the
    specification states about them.

    JavaScript strings are sequences of UTF-16 code units; they are
    modelled as lists of code units so that [trim], [substring] and the
    template literals behave on every string as they do in the source. *)

From Stdlib Require Import List String Ascii NArith Arith Bool Lia DecimalString
  Permutation.
Import ListNotations.
Open Scope string_scope.
Open Scope list_scope.

Set Implicit Arguments.

(** ** JavaScript strings and the [Map] of the attribute comparison *)

Module Js.

Definition jsstring := list N.

(** An ASCII literal of the source, as code units. *)
Definition lit (s : string) : jsstring :=
  map N_of_ascii (list_ascii_of_string s).

(** [a === b] on strings. *)
Fixpoint str_eqb (a b : jsstring) : bool :=
  match a, b with
  | [], [] => true
  | x :: a', y :: b' => N.eqb x y && str_eqb a' b'
  | _, _ => false
  end.

(** A string in a boolean position: only the empty string is falsy. *)
Definition truthy (s : jsstring) : bool :=
  match s with [] => false | _ :: _ => true end.

(** The code units [String.prototype.trim] strips: WhiteSpace and
    LineTerminator of ECMA-262. *)
Definition isWhiteSpace (c : N) : bool :=
  (existsb (N.eqb c)
     [9; 10; 11; 12; 13; 32; 160; 5760; 8232; 8233; 8239; 8287; 12288; 65279]
   || ((8192 <=? c) && (c <=? 8202)))%N.

Fixpoint trimStart (s : jsstring) : jsstring :=
  match s with
  | c :: s' => if isWhiteSpace c then trimStart s' else s
  | [] => []
  end.

Definition trimEnd (s : jsstring) : jsstring := rev (trimStart (rev s)).

Definition trim (s : jsstring) : jsstring := trimEnd (trimStart s).

(** [s.substring(0, n)]. *)
Definition substring0 (n : nat) (s : jsstring) : jsstring := firstn n s.

(** [`${i}`] for a loop index. *)
Definition toString (i : nat) : jsstring :=
  lit (NilZero.string_of_uint (Nat.to_uint i)).

(** [`${x}`] for an optional field: an unset field prints as
    [undefined]. *)
Definition show (o : option jsstring) : jsstring :=
  match o with
  | Some s => s
  | None => lit "undefined"
  end.

(** [parts.join(sep)]. *)
Fixpoint join (sep : jsstring) (parts : list jsstring) : jsstring :=
  match parts with
  | [] => []
  | [p] => p
  | p :: rest => p ++ sep ++ join sep rest
  end.

(** [s.split(sep)] for a one-unit separator: the pieces between the
    occurrences of [sep]; never the empty list. *)
Fixpoint split (sep : N) (s : jsstring) : list jsstring :=
  match s with
  | [] => [[]]
  | c :: s' =>
      if N.eqb c sep then [] :: split sep s'
      else match split sep s' with
           | [] => [[c]]
           | p :: ps => (c :: p) :: ps
           end
  end.

(** A [Map<string, string>]: its entries in insertion order, keys
    unique. *)
Definition Map := list (jsstring * jsstring).

Fixpoint Map_set (m : Map) (k v : jsstring) : Map :=
  match m with
  | [] => [(k, v)]
  | (k', v') :: m' =>
      if str_eqb k' k then (k', v) :: m' else (k', v') :: Map_set m' k v
  end.

(** [new Map(entries)]: the entries are set one after the other. *)
Definition Map_new (entries : list (jsstring * jsstring)) : Map :=
  fold_left (fun m e => Map_set m (fst e) (snd e)) entries [].

Fixpoint Map_get (m : Map) (k : jsstring) : option jsstring :=
  match m with
  | [] => None
  | (k', v') :: m' => if str_eqb k' k then Some v' else Map_get m' k
  end.

Definition Map_has (m : Map) (k : jsstring) : bool :=
  match Map_get m k with Some _ => true | None => false end.

End Js.
Import Js.

(** ** The DOM nodes the comparison receives *)

Module Dom.

(** The nodes below a [body]: elements, text and comments. An
    element carries its upper-case [nodeName], its attributes in
    document order and its [childNodes]. *)
#[local] Unset Elimination Schemes.

Inductive Node : Type :=
| Element (tag : jsstring) (attrs : list (jsstring * jsstring))
          (children : list Node)
| Text (data : jsstring)
| Comment (data : jsstring).

#[local] Set Elimination Schemes.

Definition nodeType (n : Node) : nat :=
  match n with
  | Element _ _ _ => 1
  | Text _ => 3
  | Comment _ => 8
  end.

Definition nodeName (n : Node) : jsstring :=
  match n with
  | Element tag _ _ => tag
  | Text _ => lit "#text"
  | Comment _ => lit "#comment"
  end.

Definition attributes (n : Node) : list (jsstring * jsstring) :=
  match n with
  | Element _ attrs _ => attrs
  | _ => []
  end.

Definition childNodes (n : Node) : list Node :=
  match n with
  | Element _ _ children => children
  | _ => []
  end.

(** [node.textContent]: the data of a text or comment node; for an
    element the concatenation of the [textContent] of its children,
    comments left out. *)
Fixpoint textContent (n : Node) : jsstring :=
  match n with
  | Element _ _ children =>
      (fix descendants (l : list Node) : jsstring :=
         match l with
         | [] => []
         | c :: l' =>
             match c with
             | Comment _ => []
             | _ => textContent c
             end ++ descendants l'
         end) children
  | Text data => data
  | Comment data => data
  end.

(** Induction on a node with the hypothesis for every child. *)
Section NodeInd.
Variable P : Node -> Prop.
Hypothesis P_element :
  forall tag attrs children, Forall P children -> P (Element tag attrs children).
Hypothesis P_text : forall data, P (Text data).
Hypothesis P_comment : forall data, P (Comment data).

Fixpoint Node_forall_ind (n : Node) : P n :=
  match n with
  | Element tag attrs children =>
      P_element tag attrs
        ((fix all (l : list Node) : Forall P l :=
            match l with
            | [] => Forall_nil P
            | c :: l' => Forall_cons c (Node_forall_ind c) (all l')
            end) children)
  | Text data => P_text data
  | Comment data => P_comment data
  end.
End NodeInd.

End Dom.
Import Dom.

(** ** The change records *)

Record SimpleDiff : Type := mkDiff {
  action : jsstring;
  element : option jsstring;
  content : option jsstring;
  oldValue : option jsstring;
  newValue : option jsstring;
  path : option jsstring
}.

Definition replaceNode (p old new : jsstring) : SimpleDiff :=
  mkDiff (lit "replaceNode") None None (Some old) (Some new) (Some p).

Definition modifyTextElement (p old new : jsstring) : SimpleDiff :=
  mkDiff (lit "modifyTextElement") None None (Some old) (Some new) (Some p).

Definition replaceElement (p old new : jsstring) : SimpleDiff :=
  mkDiff (lit "replaceElement") None None (Some old) (Some new) (Some p).

Definition addAttribute (el p c : jsstring) : SimpleDiff :=
  mkDiff (lit "addAttribute") (Some el) (Some c) None None (Some p).

Definition modifyAttribute (el p old new : jsstring) : SimpleDiff :=
  mkDiff (lit "modifyAttribute") (Some el) None (Some old) (Some new) (Some p).

Definition removeAttribute (el p c : jsstring) : SimpleDiff :=
  mkDiff (lit "removeAttribute") (Some el) (Some c) None None (Some p).

Definition addElement (el p c : jsstring) : SimpleDiff :=
  mkDiff (lit "addElement") (Some el) (Some c) None None (Some p).

Definition removeElement (el p c : jsstring) : SimpleDiff :=
  mkDiff (lit "removeElement") (Some el) (Some c) None None (Some p).

(** ** [extractStructuralDifferences] *)

(** [`${name}="${value}"`] *)
Definition attrText (name : jsstring) (value : option jsstring) : jsstring :=
  name ++ lit "=" ++ [34%N] ++ show value ++ [34%N].

(** [`/${el1.nodeName}[${i}]`], what one level of descent appends. *)
Definition segment (tag : jsstring) (i : nat) : jsstring :=
  lit "/" ++ tag ++ lit "[" ++ toString i ++ lit "]".

(** [`${path}/${el1.nodeName}[${i}]`] *)
Definition childPath (path tag : jsstring) (i : nat) : jsstring :=
  path ++ segment tag i.

(** The loop over [attrMap2]: added and modified attributes. *)
Fixpoint addedOrModified (attrMap1 : Map) (tag path : jsstring)
    (entries2 : list (jsstring * jsstring)) : list SimpleDiff :=
  match entries2 with
  | [] => []
  | (name, value) :: rest =>
      (if negb (Map_has attrMap1 name) then
         [addAttribute tag path (attrText name (Some value))]
       else if negb (match Map_get attrMap1 name with
                     | Some v1 => str_eqb v1 value
                     | None => false
                     end) then
         [modifyAttribute tag path
            (attrText name (Map_get attrMap1 name))
            (attrText name (Some value))]
       else [])
      ++ addedOrModified attrMap1 tag path rest
  end.

(** The loop over [attrMap1]: removed attributes. *)
Fixpoint removed (attrMap2 : Map) (tag path : jsstring)
    (entries1 : list (jsstring * jsstring)) : list SimpleDiff :=
  match entries1 with
  | [] => []
  | (name, value) :: rest =>
      (if negb (Map_has attrMap2 name) then
         [removeAttribute tag path (attrText name (Some value))]
       else [])
      ++ removed attrMap2 tag path rest
  end.

(** The loop [for (let i = 0; i < maxLen; i++)], from index [i] on, over
    what is left of the two child arrays. [compare] is the recursive
    call. *)
Section ChildLoop.
Variable compare : Node -> Node -> jsstring -> list SimpleDiff.
Variable path tag : jsstring.

(** [children1] is exhausted: every remaining [child2] is added. *)
Fixpoint addedChildren (children2 : list Node) (i : nat) : list SimpleDiff :=
  match children2 with
  | [] => []
  | child2 :: rest2 =>
      addElement (nodeName child2) (childPath path tag i)
        (substring0 50 (textContent child2))
      :: addedChildren rest2 (S i)
  end.

Fixpoint childLoop (children1 children2 : list Node) (i : nat)
    {struct children1} : list SimpleDiff :=
  match children1, children2 with
  | [], _ => addedChildren children2 i
  | child1 :: rest1, [] =>
      removeElement (nodeName child1) (childPath path tag i)
        (substring0 50 (textContent child1))
      :: childLoop rest1 [] (S i)
  | child1 :: rest1, child2 :: rest2 =>
      compare child1 child2 (childPath path tag i)
      ++ childLoop rest1 rest2 (S i)
  end.
End ChildLoop.

(** One iteration of the loop, on [children1[i]] and [children2[i]];
    [None] is [undefined], an index past the end of the array. *)
Definition loopBody (compare : Node -> Node -> jsstring -> list SimpleDiff)
    (path tag : jsstring) (child1 child2 : option Node) (i : nat)
    : list SimpleDiff :=
  match child1, child2 with
  | None, Some c2 =>
      [addElement (nodeName c2) (childPath path tag i)
         (substring0 50 (textContent c2))]
  | Some c1, None =>
      [removeElement (nodeName c1) (childPath path tag i)
         (substring0 50 (textContent c1))]
  | Some c1, Some c2 => compare c1 c2 (childPath path tag i)
  | None, None => []
  end.

Fixpoint extractStructuralDifferences (node1 node2 : Node) (path : jsstring)
    {struct node1} : list SimpleDiff :=
  if negb (Nat.eqb (nodeType node1) (nodeType node2)) then
    [replaceNode path (nodeName node1) (nodeName node2)]
  else if Nat.eqb (nodeType node1) 3 then
    let text1 := trim (textContent node1) in
    let text2 := trim (textContent node2) in
    if negb (str_eqb text1 text2) && truthy text1 && truthy text2 then
      [modifyTextElement path text1 text2]
    else []
  else
    match node1, node2 with
    | Element tag1 attrs1 children1, Element tag2 attrs2 children2 =>
        if negb (str_eqb tag1 tag2) then
          [replaceElement path tag1 tag2]
        else
          let attrMap1 := Map_new attrs1 in
          let attrMap2 := Map_new attrs2 in
          addedOrModified attrMap1 tag1 path attrMap2
          ++ removed attrMap2 tag1 path attrMap1
          ++ childLoop extractStructuralDifferences path tag1
               children1 children2 0
    | _, _ => []
    end.

(** ** [generateDiffSummary] *)

(** [diff.content ? `: "${diff.content}"` : ""] *)
Definition contentSuffix (c : option jsstring) : jsstring :=
  match c with
  | Some s => if truthy s then lit ": " ++ [34%N] ++ s ++ [34%N] else []
  | None => []
  end.

Definition quoted (s : jsstring) : jsstring := [34%N] ++ s ++ [34%N].

(** The code units of the arrows of the templates: U+2192 and U+2194. *)
Definition rightArrow : jsstring := [8594%N].
Definition leftRightArrow : jsstring := [8596%N].

(** The string one iteration of the loop pushes on [summaryParts]: the
    [switch] on [diff.action]. *)
Definition summaryPart (diff : SimpleDiff) : jsstring :=
  if str_eqb (action diff) (lit "addElement") then
    lit "+ Added: <" ++ show (element diff) ++ lit ">"
    ++ contentSuffix (content diff) ++ lit " at " ++ show (path diff)
  else if str_eqb (action diff) (lit "removeElement") then
    lit "- Removed: <" ++ show (element diff) ++ lit ">"
    ++ contentSuffix (content diff) ++ lit " at " ++ show (path diff)
  else if str_eqb (action diff) (lit "modifyTextElement") then
    lit "~ Modified text: " ++ quoted (show (oldValue diff)) ++ lit " "
    ++ rightArrow ++ lit " " ++ quoted (show (newValue diff))
  else if str_eqb (action diff) (lit "addAttribute") then
    lit "+ Added attribute on <" ++ show (element diff) ++ lit ">: "
    ++ show (content diff)
  else if str_eqb (action diff) (lit "removeAttribute") then
    lit "- Removed attribute on <" ++ show (element diff) ++ lit ">: "
    ++ show (content diff)
  else if str_eqb (action diff) (lit "modifyAttribute") then
    lit "~ Modified attribute on <" ++ show (element diff) ++ lit ">: "
    ++ show (oldValue diff) ++ lit " " ++ rightArrow ++ lit " "
    ++ show (newValue diff)
  else if str_eqb (action diff) (lit "replaceElement") then
    leftRightArrow ++ lit " Replaced <" ++ show (oldValue diff)
    ++ lit "> with <" ++ show (newValue diff) ++ lit "> at "
    ++ show (path diff)
  else if str_eqb (action diff) (lit "replaceNode") then
    leftRightArrow ++ lit " Replaced node " ++ show (oldValue diff)
    ++ lit " with " ++ show (newValue diff) ++ lit " at "
    ++ show (path diff)
  else
    lit "? Unknown action: " ++ action diff.

(** [summaryParts] when the loop is over. *)
Definition summaryParts (diffs : list SimpleDiff) : list jsstring :=
  map summaryPart diffs.

Definition newline : N := 10%N.

Definition generateDiffSummary (diffs : list SimpleDiff) : jsstring :=
  join [newline] (summaryParts diffs).

(** ** [extractDiff] *)

Record DiffResult : Type := mkDiffResult {
  diffs : list SimpleDiff;
  count : nat;
  summary : jsstring
}.

(** [doc1] and [doc2] are the two bodies,
    [new JSDOM(html).window.document.body] of the two arguments; the
    parser is a library the repository calls. *)
Definition extractDiff (doc1 doc2 : Node) : DiffResult :=
  let diffs := extractStructuralDifferences doc1 doc2 [] in
  let summary := generateDiffSummary diffs in
  mkDiffResult diffs (List.length diffs) summary.

(** ** The documents of the specification's scenarios *)

Definition el (tag : string) (attrs : list (string * string))
    (children : list Node) : Node :=
  Element (lit tag) (map (fun a => (lit (fst a), lit (snd a))) attrs) children.

Definition txt (s : string) : Node := Text (lit s).

(** [<body><ul><li>X</li><li>Y</li></ul></body>] *)
Definition listA : Node :=
  el "BODY" [] [el "UL" [] [el "LI" [] [txt "X"]; el "LI" [] [txt "Y"]]].

(** [<body><ul><li>NEW</li><li>X</li><li>Y</li></ul></body>] *)
Definition listB : Node :=
  el "BODY" []
    [el "UL" [] [el "LI" [] [txt "NEW"]; el "LI" [] [txt "X"];
                 el "LI" [] [txt "Y"]]].

Definition htmlA : jsstring := lit "<body><h1>Title</h1></body>".
Definition htmlB : jsstring :=
  lit "<body><h1>Title</h1><p>New paragraph</p></body>".

(** The [body] of [htmlA] and of [htmlB]. *)
Definition bodyA : Node := el "BODY" [] [el "H1" [] [txt "Title"]].
Definition bodyB : Node :=
  el "BODY" [] [el "H1" [] [txt "Title"]; el "P" [] [txt "New paragraph"]].

(** [<a href="/x">] and [<a href="/x" target="_blank">] *)
Definition anchor1 : Node := el "A" [("href", "/x")] [].
Definition anchor2 : Node := el "A" [("href", "/x"); ("target", "_blank")] [].

(** [<body></body>] and a [body] whose paragraph holds two lines of
    text. *)
Definition emptyBody : Node := el "BODY" [] [].
Definition twoLines : jsstring :=
  lit "first line" ++ [newline] ++ lit "second line".
Definition twoLineBody : Node := el "BODY" [] [el "P" [] [Text twoLines]].

(** [<body><p>New paragraph</p></body>] *)
Definition paragraphBody : Node :=
  el "BODY" [] [el "P" [] [txt "New paragraph"]].

(** ** Vocabulary of the properties *)

(** The eight values of [action] the [switch] of [generateDiffSummary]
    has a case for. *)
Definition knownActions : list jsstring :=
  [lit "addElement"; lit "removeElement"; lit "modifyTextElement";
   lit "addAttribute"; lit "removeAttribute"; lit "modifyAttribute";
   lit "replaceElement"; lit "replaceNode"].

Definition textAndAttributeActions : list jsstring :=
  [lit "modifyTextElement"; lit "addAttribute"; lit "removeAttribute";
   lit "modifyAttribute"].

Definition childAndReplaceActions : list jsstring :=
  [lit "addElement"; lit "removeElement"; lit "replaceElement";
   lit "replaceNode"].

(** A record with its [path] field replaced. *)
Definition withPath (p : option jsstring) (d : SimpleDiff) : SimpleDiff :=
  mkDiff (action d) (element d) (content d) (oldValue d) (newValue d) p.

(** The non-empty lines of a text. *)
Definition nonEmptyLines (s : jsstring) : list jsstring :=
  filter truthy (split newline s).

(** A descent from the pair of nodes under comparison: each step names
    the element of tree A that is left and the index, counted from 0,
    of the child that is entered. The child exists in both trees, or,
    at the last step only, in one of them. *)
Fixpoint route (n1 n2 : Node) (segs : list (jsstring * nat)) {struct segs}
    : Prop :=
  match segs with
  | [] => True
  | (t, i) :: rest =>
      nodeType n1 = 1 /\ nodeName n1 = t /\
      match nth_error (childNodes n1) i, nth_error (childNodes n2) i with
      | Some c1, Some c2 => route c1 c2 rest
      | Some _, None | None, Some _ => rest = []
      | None, None => False
      end
  end.

(** The path of a descent as the source writes it: the index of every
    step as it is, counted from 0. *)
Definition renderPath (segs : list (jsstring * nat)) : jsstring :=
  List.concat (map (fun s => segment (fst s) (snd s)) segs).

(** The path of a descent as the specification words it: the index of
    every step is the position counted from 1. *)
Definition oneBasedPath (segs : list (jsstring * nat)) : jsstring :=
  List.concat (map (fun s => segment (fst s) (S (snd s))) segs).

(** A node on its own, its children left aside. *)
Definition withoutChildren (n : Node) : Node :=
  match n with
  | Element tag attrs _ => Element tag attrs []
  | _ => n
  end.

(** The records the comparison gives for a pair of nodes by themselves,
    their children left aside: the kind or tag replacement, the modified
    text, the attribute records. *)
Definition ownRecords (node1 node2 : Node) (q : jsstring) : list SimpleDiff :=
  extractStructuralDifferences (withoutChildren node1) (withoutChildren node2)
    q.

(** A position below a node: the indices, counted from 0, of the children
    entered one after the other. Its path in tree A: for every level the
    [nodeName] of the element of tree A that is left and the index of the
    child entered there, as it is. *)
Fixpoint pathOf (node1 : Node) (position : list nat) : jsstring :=
  match position with
  | [] => []
  | i :: rest =>
      segment (nodeName node1) i
      ++ match nth_error (childNodes node1) i with
         | Some child1 => pathOf child1 rest
         | None => []
         end
  end.

(** What there is to report at a position, written with the path [q]:
    where both trees have a node, the records of that pair by itself;
    where only tree B has one, the added child; where only tree A has
    one, the removed child. *)
Fixpoint recordsAt (node1 node2 : Node) (position : list nat) (q : jsstring)
    {struct position} : list SimpleDiff :=
  match position with
  | [] => ownRecords node1 node2 q
  | i :: rest =>
      match nth_error (childNodes node1) i, nth_error (childNodes node2) i with
      | Some child1, Some child2 => recordsAt child1 child2 rest q
      | None, Some child2 =>
          match rest with
          | [] => [addElement (nodeName child2) q
                     (substring0 50 (textContent child2))]
          | _ :: _ => []
          end
      | Some child1, None =>
          match rest with
          | [] => [removeElement (nodeName child1) q
                     (substring0 50 (textContent child1))]
          | _ :: _ => []
          end
      | None, None => []
      end
  end.

(** The positions the comparison visits, in its order: the pair itself,
    then, when the two are elements of one tag, child index after child
    index, the positions below a child both trees have, or the index
    alone for a child only one tree has. Below a pair of different kinds
    or tags nothing is visited. *)
Section ChildSites.
Variable sitesOf : Node -> Node -> list (list nat).

Fixpoint childSites (children1 children2 : list Node) (i : nat)
    {struct children1} : list (list nat) :=
  match children1, children2 with
  | [], _ => map (fun k => [k]) (seq i (List.length children2))
  | _ :: rest1, [] => [i] :: childSites rest1 [] (S i)
  | child1 :: rest1, child2 :: rest2 =>
      map (cons i) (sitesOf child1 child2) ++ childSites rest1 rest2 (S i)
  end.
End ChildSites.

Fixpoint sites (node1 node2 : Node) {struct node1} : list (list nat) :=
  [] :: match node1, node2 with
        | Element tag1 _ children1, Element tag2 _ children2 =>
            if str_eqb tag1 tag2 then childSites sites children1 children2 0
            else []
        | _, _ => []
        end.

(** A record read the other way round: what was added is removed, and
    the old and the new value change places. *)
Definition mirrorAction (a : jsstring) : jsstring :=
  if str_eqb a (lit "addElement") then lit "removeElement"
  else if str_eqb a (lit "removeElement") then lit "addElement"
  else if str_eqb a (lit "addAttribute") then lit "removeAttribute"
  else if str_eqb a (lit "removeAttribute") then lit "addAttribute"
  else a.

Definition mirror (d : SimpleDiff) : SimpleDiff :=
  mkDiff (mirrorAction (action d)) (element d) (content d)
    (newValue d) (oldValue d) (path d).

(** The two kinds of record of the loop over [attrMap2], each kind on
    its own: the attributes [attrMap1] lacks, and those it holds with
    another value. *)
Definition addedOnly (attrMap1 : Map) (tag path : jsstring)
    (entries2 : list (jsstring * jsstring)) : list SimpleDiff :=
  flat_map
    (fun e => if Map_has attrMap1 (fst e) then []
              else [addAttribute tag path (attrText (fst e) (Some (snd e)))])
    entries2.

(** The names two maps hold with different values, as triples of the
    name, the value of [other] and the value of [entries], in the order
    of [entries]. [swap] says which of the two values comes first. *)
Definition changedValues (swap : bool) (other : Map)
    (entries : list (jsstring * jsstring))
    : list (jsstring * jsstring * jsstring) :=
  flat_map
    (fun e => match Map_get other (fst e) with
              | Some v =>
                  if str_eqb v (snd e) then []
                  else [if swap then (fst e, snd e, v) else (fst e, v, snd e)]
              | None => []
              end)
    entries.

Definition modifyRecord (tag path : jsstring)
    (t : jsstring * jsstring * jsstring) : SimpleDiff :=
  modifyAttribute tag path (attrText (fst (fst t)) (Some (snd (fst t))))
    (attrText (fst (fst t)) (Some (snd t))).

(** What the comparison emits, case by case, with the condition under
    which the source pushes it. *)
Inductive emitted : SimpleDiff -> Prop :=
| emitted_replaceNode (p : jsstring) (node1 node2 : Node) :
    nodeType node1 <> nodeType node2 ->
    emitted (replaceNode p (nodeName node1) (nodeName node2))
| emitted_modifyTextElement (p data1 data2 : jsstring) :
    trim data1 <> trim data2 -> trim data1 <> [] -> trim data2 <> [] ->
    emitted (modifyTextElement p (trim data1) (trim data2))
| emitted_replaceElement (p tag1 tag2 : jsstring) :
    tag1 <> tag2 -> emitted (replaceElement p tag1 tag2)
| emitted_addAttribute (tag p name value : jsstring) :
    emitted (addAttribute tag p (attrText name (Some value)))
| emitted_modifyAttribute (tag p name value1 value2 : jsstring) :
    value1 <> value2 ->
    emitted (modifyAttribute tag p (attrText name (Some value1))
               (attrText name (Some value2)))
| emitted_removeAttribute (tag p name value : jsstring) :
    emitted (removeAttribute tag p (attrText name (Some value)))
| emitted_addElement (p : jsstring) (child2 : Node) :
    emitted (addElement (nodeName child2) p
               (substring0 50 (textContent child2)))
| emitted_removeElement (p : jsstring) (child1 : Node) :
    emitted (removeElement (nodeName child1) p
               (substring0 50 (textContent child1))).

(** Pairs of trees between which the comparison has nothing to report:
    text nodes whose trimmed texts are equal or one of them empty, any
    two comments, and elements of one tag whose attribute maps agree and
    whose children are as many and pairwise such pairs. *)
#[local] Unset Elimination Schemes.

Inductive unreported : Node -> Node -> Prop :=
| unreported_text (data1 data2 : jsstring) :
    trim data1 = trim data2 \/ trim data1 = [] \/ trim data2 = [] ->
    unreported (Text data1) (Text data2)
| unreported_comment (data1 data2 : jsstring) :
    unreported (Comment data1) (Comment data2)
| unreported_element (tag : jsstring)
    (attrs1 attrs2 : list (jsstring * jsstring))
    (children1 children2 : list Node) :
    (forall name,
       Map_get (Map_new attrs1) name = Map_get (Map_new attrs2) name) ->
    Forall2 unreported children1 children2 ->
    unreported (Element tag attrs1 children1) (Element tag attrs2 children2).

#[local] Set Elimination Schemes.

(** ** The command line: [parseArgs], [validateOptions] and the sources
    [compare] fetches *)

Record CLIOptions : Type := mkOptions {
  url1 : option jsstring;
  url2 : option jsstring;
  file1 : option jsstring;
  file2 : option jsstring;
  json : option bool;
  puppeteer : option bool;
  model : option jsstring
}.

(** [const options: CLIOptions = {}] *)
Definition noOptions : CLIOptions :=
  mkOptions None None None None None None None.

(** Why the process ends before [compare] runs, with what is printed:
    the help text, or one of the three error messages of
    [validateOptions]. *)
Inductive ExitReason : Type :=
| HelpPrinted
| MissingSource
| BothUrl1AndFile1
| BothUrl2AndFile2.

(** A function that may call [process.exit(code)]. *)
Inductive Outcome (A : Type) : Type :=
| Returns (a : A)
| Exits (code : nat) (why : ExitReason).

Arguments Returns {A} a.
Arguments Exits {A} code why.

(** The loop of [parseArgs] over what is left of [args]. An option that
    takes a value reads [args[i + 1]], [undefined] past the end, and
    skips it. *)
Fixpoint parseLoop (options : CLIOptions) (args : list jsstring)
    : Outcome CLIOptions :=
  match args with
  | [] => Returns options
  | arg :: rest =>
      let withNext (assign : option jsstring -> CLIOptions) :=
        match rest with
        | [] => Returns (assign None)
        | nextArg :: rest' => parseLoop (assign (Some nextArg)) rest'
        end in
      if str_eqb arg (lit "--url1") then
        withNext (fun v => mkOptions v (url2 options) (file1 options)
                    (file2 options) (json options) (puppeteer options)
                    (model options))
      else if str_eqb arg (lit "--url2") then
        withNext (fun v => mkOptions (url1 options) v (file1 options)
                    (file2 options) (json options) (puppeteer options)
                    (model options))
      else if str_eqb arg (lit "--file1") then
        withNext (fun v => mkOptions (url1 options) (url2 options) v
                    (file2 options) (json options) (puppeteer options)
                    (model options))
      else if str_eqb arg (lit "--file2") then
        withNext (fun v => mkOptions (url1 options) (url2 options)
                    (file1 options) v (json options) (puppeteer options)
                    (model options))
      else if str_eqb arg (lit "--json") then
        parseLoop (mkOptions (url1 options) (url2 options) (file1 options)
                     (file2 options) (Some true) (puppeteer options)
                     (model options)) rest
      else if str_eqb arg (lit "--puppeteer") then
        parseLoop (mkOptions (url1 options) (url2 options) (file1 options)
                     (file2 options) (json options) (Some true)
                     (model options)) rest
      else if str_eqb arg (lit "--model") then
        withNext (fun v => mkOptions (url1 options) (url2 options)
                    (file1 options) (file2 options) (json options)
                    (puppeteer options) v)
      else if str_eqb arg (lit "--help") || str_eqb arg (lit "-h") then
        Exits 0 HelpPrinted
      else parseLoop options rest
  end.

(** [parseArgs], on [process.argv]. *)
Definition parseArgs (argv : list jsstring) : Outcome CLIOptions :=
  parseLoop noOptions (skipn 2 argv).

(** An optional string in a boolean position. *)
Definition isSet (o : option jsstring) : bool :=
  match o with
  | Some s => truthy s
  | None => false
  end.

(** [a || b] *)
Definition orElse (a b : option jsstring) : option jsstring :=
  if isSet a then a else b.

Definition validateOptions (options : CLIOptions) : Outcome unit :=
  let hasSource1 := orElse (url1 options) (file1 options) in
  let hasSource2 := orElse (url2 options) (file2 options) in
  if negb (isSet hasSource1) || negb (isSet hasSource2) then
    Exits 1 MissingSource
  else if isSet (url1 options) && isSet (file1 options) then
    Exits 1 BothUrl1AndFile1
  else if isSet (url2 options) && isSet (file2 options) then
    Exits 1 BothUrl2AndFile2
  else Returns tt.

(** The arguments of the two calls of [fetchHTML] in [compare]:
    [(source1, isFile1)] and [(source2, isFile2)]. *)
Definition fetchArguments (options : CLIOptions)
    : (option jsstring * bool) * (option jsstring * bool) :=
  let source1 := orElse (url1 options) (file1 options) in
  let source2 := orElse (url2 options) (file2 options) in
  let isFile1 := isSet (file1 options) in
  let isFile2 := isSet (file2 options) in
  ((source1, isFile1), (source2, isFile2)).

(** The options that take a value. *)
Definition valueOptions : list jsstring :=
  [lit "--url1"; lit "--url2"; lit "--file1"; lit "--file2"; lit "--model"].

(** ** The Azure OpenAI client: [createAzureOpenAIClient] and the model
    [evaluateDifferences] asks for *)

(** [process.env] *)
Definition Env := jsstring -> option jsstring.

(** The argument of [new OpenAI(...)]. *)
Record ClientConfig : Type := mkClientConfig {
  apiKey : jsstring;
  baseURL : jsstring;
  defaultQuery : jsstring * jsstring;
  defaultHeaders : jsstring * jsstring
}.

(** A function that may [throw new Error(message)]. *)
Inductive Thrown (A : Type) : Type :=
| Value (a : A)
| Throw (message : jsstring).

Arguments Value {A} a.
Arguments Throw {A} message.

Definition missingConfiguration : jsstring :=
  lit "Missing Azure OpenAI configuration. Please set AZURE_OPENAI_ENDPOINT, AZURE_OPENAI_API_KEY, AZURE_OPENAI_DEPLOYMENT, and AZURE_OPENAI_API_VERSION".

Definition createAzureOpenAIClient (env : Env) : Thrown ClientConfig :=
  let endpoint := env (lit "AZURE_OPENAI_ENDPOINT") in
  let apiKey := env (lit "AZURE_OPENAI_API_KEY") in
  let deployment := env (lit "AZURE_OPENAI_DEPLOYMENT") in
  let apiVersion := env (lit "AZURE_OPENAI_API_VERSION") in
  if negb (isSet endpoint) || negb (isSet apiKey) || negb (isSet deployment)
     || negb (isSet apiVersion) then
    Throw missingConfiguration
  else
    Value (mkClientConfig (show apiKey)
             (show endpoint ++ lit "/openai/deployments/" ++ show deployment)
             (lit "api-version", show apiVersion)
             (lit "api-key", show apiKey)).

(** The start of [evaluateDifferences], up to the [model] of the
    request: the client is created first, outside the [try], then
    [model || deployment] with
    [deployment = process.env.AZURE_OPENAI_DEPLOYMENT || "gpt-4o"]. *)
Definition requestModel (env : Env) (model : option jsstring)
    : Thrown jsstring :=
  match createAzureOpenAIClient env with
  | Throw message => Throw message
  | Value _ =>
      let deployment :=
        orElse (env (lit "AZURE_OPENAI_DEPLOYMENT")) (Some (lit "gpt-4o")) in
      Value (show (orElse model deployment))
  end.

(** A string that does not begin with white space. *)
Definition startsClean (s : jsstring) : Prop :=
  match s with
  | [] => True
  | c :: _ => isWhiteSpace c = false
  end.

(** ** Strings and maps *)

Lemma str_eqb_eq (a b : jsstring) : str_eqb a b = true <-> a = b.
Proof.
  revert b; induction a as [|x a IH]; intros [|y b]; simpl;
    try (split; [discriminate | discriminate]); try tauto.
  rewrite andb_true_iff, N.eqb_eq, IH.
  split; [intros [-> ->]; reflexivity | intros H; inversion H; auto].
Qed.

Lemma str_eqb_refl (a : jsstring) : str_eqb a a = true.
Proof. apply str_eqb_eq; reflexivity. Qed.

Lemma str_eqb_neq (a b : jsstring) : a <> b -> str_eqb a b = false.
Proof.
  intros H; destruct (str_eqb a b) eqn:E; [|reflexivity].
  apply str_eqb_eq in E; contradiction.
Qed.

Lemma Map_get_in (m : Map) (k v : jsstring) :
  NoDup (map fst m) -> In (k, v) m -> Map_get m k = Some v.
Proof.
  induction m as [|[k' v'] m IH]; simpl; [tauto|].
  intros Hnd [Heq | Hin].
  - inversion Heq; subst; now rewrite str_eqb_refl.
  - inversion Hnd as [|? ? Hnotin Hnd']; subst.
    destruct (str_eqb k' k) eqn:E.
    + apply str_eqb_eq in E; subst.
      exfalso; apply Hnotin.
      change k with (fst (k, v)); now apply in_map.
    + now apply IH.
Qed.

Lemma Map_set_keys (m : Map) (k v : jsstring) :
  map fst (Map_set m k v) = map fst m
  \/ (~ In k (map fst m) /\ map fst (Map_set m k v) = map fst m ++ [k]).
Proof.
  induction m as [|[k' v'] m IH]; simpl.
  - right; split; [tauto | reflexivity].
  - destruct (str_eqb k' k) eqn:E; simpl; [now left|].
    destruct IH as [IH | [Hnotin IH]]; [left | right]; rewrite IH; auto.
    split; [|reflexivity].
    intros [-> | Hin]; [|contradiction].
    now rewrite str_eqb_refl in E.
Qed.

Lemma Map_set_NoDup (m : Map) (k v : jsstring) :
  NoDup (map fst m) -> NoDup (map fst (Map_set m k v)).
Proof.
  intros Hnd.
  destruct (Map_set_keys m k v) as [-> | [Hnotin ->]]; [assumption|].
  apply NoDup_app; [assumption | repeat constructor; simpl; tauto |].
  intros x Hx [<- | []]; contradiction.
Qed.

(** The keys of a [Map] built by its constructor are pairwise different. *)
Lemma Map_new_NoDup (entries : list (jsstring * jsstring)) :
  NoDup (map fst (Map_new entries)).
Proof.
  unfold Map_new.
  assert (H : forall m, NoDup (map fst m) ->
    NoDup (map fst (fold_left (fun m e => Map_set m (fst e) (snd e)) entries m))).
  { induction entries as [|e entries IH]; simpl; intros m Hm; [assumption|].
    apply IH, Map_set_NoDup, Hm. }
  apply H; constructor.
Qed.

(** ** The loops of the comparison *)

Lemma addedOrModified_same (m : Map) (tag p : jsstring)
    (entries : list (jsstring * jsstring)) :
  (forall k v, In (k, v) entries -> Map_get m k = Some v) ->
  addedOrModified m tag p entries = [].
Proof.
  induction entries as [|[k v] entries IH]; simpl; intros H; [reflexivity|].
  unfold Map_has; rewrite (H k v (or_introl eq_refl)); simpl.
  rewrite str_eqb_refl; simpl.
  apply IH; intros; apply H; now right.
Qed.

Lemma removed_same (m : Map) (tag p : jsstring)
    (entries : list (jsstring * jsstring)) :
  (forall k v, In (k, v) entries -> Map_get m k = Some v) ->
  removed m tag p entries = [].
Proof.
  induction entries as [|[k v] entries IH]; simpl; intros H; [reflexivity|].
  unfold Map_has; rewrite (H k v (or_introl eq_refl)); simpl.
  apply IH; intros; apply H; now right.
Qed.

Lemma addedOrModified_path (m : Map) (tag p : jsstring)
    (entries : list (jsstring * jsstring)) (r : SimpleDiff) :
  In r (addedOrModified m tag p entries) -> path r = Some p.
Proof.
  induction entries as [|[k v] entries IH]; simpl; [tauto|].
  rewrite in_app_iff; intros [H | H]; [|now apply IH].
  destruct (Map_has m k); simpl in H.
  - destruct (Map_get m k) as [v1|]; simpl in H;
      [destruct (str_eqb v1 v); simpl in H|];
      try contradiction; destruct H as [<- | []]; reflexivity.
  - destruct H as [<- | []]; reflexivity.
Qed.

Lemma removed_path (m : Map) (tag p : jsstring)
    (entries : list (jsstring * jsstring)) (r : SimpleDiff) :
  In r (removed m tag p entries) -> path r = Some p.
Proof.
  induction entries as [|[k v] entries IH]; simpl; [tauto|].
  rewrite in_app_iff; intros [H | H]; [|now apply IH].
  destruct (Map_has m k); simpl in H; [contradiction|].
  destruct H as [<- | []]; reflexivity.
Qed.

Lemma flat_map_seq_S (A : Type) (f : nat -> list A) (n : nat) :
  flat_map f (seq 0 (S n)) = f 0 ++ flat_map (fun k => f (S k)) (seq 0 n).
Proof.
  simpl; f_equal.
  rewrite <- seq_shift, !flat_map_concat_map, map_map; reflexivity.
Qed.

Section ChildLoopFacts.
Variable compare : Node -> Node -> jsstring -> list SimpleDiff.
Variable p tag : jsstring.

Lemma addedChildren_indexed (children2 : list Node) (i : nat) :
  addedChildren p tag children2 i
  = flat_map (fun k => loopBody compare p tag None (nth_error children2 k) (i + k))
      (seq 0 (List.length children2)).
Proof.
  revert i; induction children2 as [|c2 rest IH]; intros i; [reflexivity|].
  cbn [List.length]; rewrite flat_map_seq_S; simpl.
  rewrite Nat.add_0_r, IH; f_equal.
  apply flat_map_ext; intros k; now rewrite Nat.add_succ_r.
Qed.

(** The recursion on the two child lists is the loop of the source: for
    every index below the longer length, in order, one [loopBody]. *)
Lemma childLoop_indexed (children1 children2 : list Node) (i : nat) :
  childLoop compare p tag children1 children2 i
  = flat_map
      (fun k => loopBody compare p tag (nth_error children1 k)
                  (nth_error children2 k) (i + k))
      (seq 0 (Nat.max (List.length children1) (List.length children2))).
Proof.
  revert children2 i; induction children1 as [|c1 rest1 IH];
    intros children2 i.
  - simpl; rewrite addedChildren_indexed.
    apply flat_map_ext; intros k; now destruct k.
  - destruct children2 as [|c2 rest2].
    + cbn [childLoop List.length Nat.max]; rewrite flat_map_seq_S; simpl.
      rewrite Nat.add_0_r, IH; simpl; rewrite Nat.max_0_r; f_equal.
      apply flat_map_ext; intros k; rewrite Nat.add_succ_r.
      now destruct k.
    + cbn [childLoop List.length Nat.max]; rewrite flat_map_seq_S; simpl.
      rewrite Nat.add_0_r, IH; f_equal.
      apply flat_map_ext; intros k; now rewrite Nat.add_succ_r.
Qed.
End ChildLoopFacts.

Lemma childLoop_same (p tag : jsstring) (children : list Node) (i : nat) :
  Forall (fun c => forall q, extractStructuralDifferences c c q = []) children ->
  childLoop extractStructuralDifferences p tag children children i = [].
Proof.
  intros H; revert i; induction H as [|c rest Hc _ IH]; intros i; simpl;
    [reflexivity|].
  now rewrite Hc, IH.
Qed.

(** ** Properties of [extractStructuralDifferences] *)

(** C4 (identity). A tree compared against an identical copy of itself
    yields no record: [extractStructuralDifferences(T, T, "")] is empty,
    and so is the comparison at any other starting path. *)
Theorem identity_no_records (T : Node) :
  extractStructuralDifferences T T [] = []
  /\ forall p, extractStructuralDifferences T T p = [].
Proof.
  assert (H : forall p, extractStructuralDifferences T T p = []).
  { induction T as [tag attrs children IH | data | data]
      using Node_forall_ind; intros p.
    - cbn -[Map_new]; rewrite str_eqb_refl; cbn -[Map_new].
      rewrite addedOrModified_same, removed_same, childLoop_same;
        auto using Map_get_in, Map_new_NoDup.
    - cbn; now rewrite str_eqb_refl.
    - reflexivity. }
  split; [apply H | exact H].
Qed.

(** C7 (kind mismatch). When the node types of the two nodes differ, the
    comparison returns exactly one record: a [replaceNode] at the current
    path whose [oldValue] is the [nodeName] of node A and whose
    [newValue] is the [nodeName] of node B. Nothing below the pair is
    compared. *)
Theorem kind_mismatch_single_replaceNode (node1 node2 : Node) (p : jsstring) :
  nodeType node1 <> nodeType node2 ->
  extractStructuralDifferences node1 node2 p
  = [mkDiff (lit "replaceNode") None None
       (Some (nodeName node1)) (Some (nodeName node2)) (Some p)].
Proof.
  intros H; destruct node1, node2; simpl in H; try contradiction;
    reflexivity.
Qed.

Lemma kind_mismatch_witness :
  extractStructuralDifferences (txt "Hello") (el "DIV" [("id", "a")] [txt "x"])
    (lit "/BODY[0]")
  = [mkDiff (lit "replaceNode") None None
       (Some (lit "#text")) (Some (lit "DIV")) (Some (lit "/BODY[0]"))].
Proof.
  apply (kind_mismatch_single_replaceNode (txt "Hello")
           (el "DIV" [("id", "a")] [txt "x"]) (lit "/BODY[0]")).
  simpl; discriminate.
Defined.

(** C6 (text nodes). Comparing the text node "Hello" with "Hello there"
    yields exactly one [modifyTextElement] record with [oldValue] "Hello"
    and [newValue] "Hello there"; and whenever the trimmed content of one
    of two text nodes is empty, no record is emitted. *)
Theorem text_nodes_compared_trimmed :
  (forall p,
     extractStructuralDifferences (txt "Hello") (txt "Hello there") p
     = [mkDiff (lit "modifyTextElement") None None
          (Some (lit "Hello")) (Some (lit "Hello there")) (Some p)])
  /\ forall (t1 t2 p : jsstring),
       trim t1 = [] \/ trim t2 = [] ->
       extractStructuralDifferences (Text t1) (Text t2) p = [].
Proof.
  split; [reflexivity|].
  intros t1 t2 p H; cbn -[trim].
  destruct H as [-> | ->]; cbn -[trim].
  - now rewrite andb_false_r.
  - now rewrite andb_false_r.
Qed.

Lemma text_nodes_witness :
  extractStructuralDifferences (txt "Hello") (txt "") [] = []
  /\ extractStructuralDifferences (txt "Hello") (Text [32; 9; 10]%N) [] = []
  /\ extractStructuralDifferences (txt "  ") (txt "Hello") [] = [].
Proof.
  destruct text_nodes_compared_trimmed as [_ H].
  repeat split; apply H; vm_compute; auto.
Defined.

(** C1 (positional insertion). For A = [<ul><li>X</li><li>Y</li></ul>]
    and B = [<ul><li>NEW</li><li>X</li><li>Y</li></ul>] the comparison of
    the two bodies reports the text of the first [li] as modified from X
    to NEW, then the text of the second as modified from Y to X, and last
    an [addElement] for the third [li]; the result is not a single
    insertion of one [li]. Children are aligned by index. *)
Theorem positional_insertion_artifact :
  extractStructuralDifferences listA listB []
  = [ mkDiff (lit "modifyTextElement") None None
        (Some (lit "X")) (Some (lit "NEW")) (Some (lit "/BODY[0]/UL[0]/LI[0]"));
      mkDiff (lit "modifyTextElement") None None
        (Some (lit "Y")) (Some (lit "X")) (Some (lit "/BODY[0]/UL[1]/LI[0]"));
      mkDiff (lit "addElement") (Some (lit "LI")) (Some (lit "Y")) None None
        (Some (lit "/BODY[0]/UL[2]")) ]
  /\ (forall tag p c,
        extractStructuralDifferences listA listB [] <> [addElement tag p c])
  /\ forall children1 children2 q tag,
       childLoop extractStructuralDifferences q tag children1 children2 0
       = flat_map
           (fun i => loopBody extractStructuralDifferences q tag
                       (nth_error children1 i) (nth_error children2 i) i)
           (seq 0 (Nat.max (List.length children1) (List.length children2))).
Proof.
  split; [reflexivity | split].
  - intros tag p c; vm_compute; discriminate.
  - intros; apply childLoop_indexed.
Qed.

(** C8 (attribute symmetry). Comparing [<a href="/x">] with
    [<a href="/x" target="_blank">] yields exactly one [addAttribute]
    record whose content is [target="_blank"]; with the two inputs
    swapped it yields exactly one [removeAttribute] record with the same
    content. *)
Theorem attribute_symmetry :
  let c := lit "target=" ++ quoted (lit "_blank") in
  extractStructuralDifferences anchor1 anchor2 []
  = [mkDiff (lit "addAttribute") (Some (lit "A")) (Some c) None None (Some [])]
  /\ extractStructuralDifferences anchor2 anchor1 []
     = [mkDiff (lit "removeAttribute") (Some (lit "A")) (Some c) None None
          (Some [])].
Proof. split; reflexivity. Qed.

(** C3 (end to end). For [<body><h1>Title</h1></body>] and
    [<body><h1>Title</h1><p>New paragraph</p></body>], [extractDiff]
    produces exactly one record: an [addElement] with element P, content
    "New paragraph" and path "/BODY[1]". *)
Theorem end_to_end_added_paragraph :
  diffs (extractDiff bodyA bodyB)
  = [mkDiff (lit "addElement") (Some (lit "P")) (Some (lit "New paragraph"))
       None None (Some (lit "/BODY[1]"))]
  /\ count (extractDiff bodyA bodyB) = 1.
Proof. split; reflexivity. Qed.

(** ** The [path] of a record *)

Lemma ownRecords_path (node1 node2 : Node) (q : jsstring) (r : SimpleDiff) :
  In r (ownRecords node1 node2 q) -> path r = Some q.
Proof.
  unfold ownRecords.
  destruct node1 as [tag attrs children | data | data],
    node2 as [tag2 attrs2 children2 | data2 | data2];
    cbn -[Map_new trim]; try (intros [<- | []]; reflexivity); try tauto.
  - destruct (str_eqb tag tag2); cbn -[Map_new];
      [|intros [<- | []]; reflexivity].
    rewrite !in_app_iff; intros [H | [H | []]].
    + eapply addedOrModified_path, H.
    + eapply removed_path, H.
  - destruct (negb (str_eqb (trim data) (trim data2)) && truthy (trim data)
              && truthy (trim data2)); [|simpl; tauto].
    intros [<- | []]; reflexivity.
Qed.

Lemma recordsAt_path (position : list nat) :
  forall (node1 node2 : Node) (q : jsstring) (r : SimpleDiff),
    In r (recordsAt node1 node2 position q) -> path r = Some q.
Proof.
  induction position as [|i rest IH]; intros node1 node2 q r; simpl.
  - apply ownRecords_path.
  - destruct (nth_error (childNodes node1) i) as [c1|],
      (nth_error (childNodes node2) i) as [c2|]; try (simpl; tauto).
    + apply IH.
    + destruct rest; [intros [<- | []]; reflexivity | simpl; tauto].
    + destruct rest; [intros [<- | []]; reflexivity | simpl; tauto].
Qed.

Lemma flat_map_map (A B C : Type) (f : B -> list C) (g : A -> B)
    (l : list A) :
  flat_map f (map g l) = flat_map (fun x => f (g x)) l.
Proof. induction l as [|x l IH]; simpl; [reflexivity | now rewrite IH]. Qed.

Section Sites.
Variable tag : jsstring.
Variable attrs1 attrs2 : list (jsstring * jsstring).
Variable all1 all2 : list Node.
Variable p : jsstring.

Let visit (position : list nat) : list SimpleDiff :=
  recordsAt (Element tag attrs1 all1) (Element tag attrs2 all2) position
    (p ++ pathOf (Element tag attrs1 all1) position).

Lemma addedChildren_sites (children2 : list Node) (i : nat) :
  (forall k, nth_error all1 (i + k) = None) ->
  (forall k, nth_error all2 (i + k) = nth_error children2 k) ->
  addedChildren p tag children2 i
  = flat_map visit (map (fun k => [k]) (seq i (List.length children2))).
Proof.
  revert i; induction children2 as [|c2 rest2 IH]; intros i H1 H2;
    [reflexivity|].
  cbn [addedChildren List.length seq map flat_map].
  rewrite IH.
  - unfold visit; cbn [recordsAt pathOf childNodes nodeName].
    pose proof (H1 0) as E1; pose proof (H2 0) as E2.
    rewrite Nat.add_0_r in E1, E2; rewrite E1, E2; simpl.
    now rewrite app_nil_r.
  - intros k; replace (S i + k) with (i + S k) by lia; apply H1.
  - intros k; replace (S i + k) with (i + S k) by lia; apply (H2 (S k)).
Qed.

Lemma childLoop_sites (children1 : list Node) :
  Forall (fun c => forall node2 q,
            extractStructuralDifferences c node2 q
            = flat_map (fun position =>
                          recordsAt c node2 position (q ++ pathOf c position))
                (sites c node2))
    children1 ->
  forall children2 i,
    (forall k, nth_error all1 (i + k) = nth_error children1 k) ->
    (forall k, nth_error all2 (i + k) = nth_error children2 k) ->
    childLoop extractStructuralDifferences p tag children1 children2 i
    = flat_map visit (childSites sites children1 children2 i).
Proof.
  induction 1 as [|c1 rest1 Hc _ IH]; intros children2 i H1 H2.
  - cbn [childLoop childSites]. apply addedChildren_sites; [|exact H2].
    intros k; rewrite H1; now destruct k.
  - pose proof (H1 0) as E1; pose proof (H2 0) as E2.
    rewrite Nat.add_0_r in E1, E2; simpl in E1.
    assert (H1' : forall k, nth_error all1 (S i + k) = nth_error rest1 k)
      by (intros k; replace (S i + k) with (i + S k) by lia; apply (H1 (S k))).
    destruct children2 as [|c2 rest2]; cbn [childLoop childSites flat_map].
    + rewrite (IH [] (S i) H1')
        by (intros k; replace (S i + k) with (i + S k) by lia; rewrite H2;
            now destruct k).
      unfold visit; cbn [recordsAt pathOf childNodes nodeName].
      simpl in E2; rewrite E1, E2; simpl.
      now rewrite app_nil_r.
    + simpl in E2.
      rewrite (IH rest2 (S i) H1')
        by (intros k; replace (S i + k) with (i + S k) by lia; apply (H2 (S k))).
      rewrite flat_map_app; f_equal.
      rewrite Hc, flat_map_map.
      apply flat_map_ext; intros position.
      unfold visit; cbn [recordsAt pathOf childNodes nodeName].
      rewrite E1, E2; unfold childPath; now rewrite <- app_assoc.
Qed.
End Sites.

Lemma extract_by_sites (node1 : Node) :
  forall (node2 : Node) (p : jsstring),
    extractStructuralDifferences node1 node2 p
    = flat_map (fun position =>
                  recordsAt node1 node2 position (p ++ pathOf node1 position))
        (sites node1 node2).
Proof.
  induction node1 as [tag attrs children IH | data | data]
    using Node_forall_ind; intros [tag2 attrs2 children2 | data2 | data2] p;
    try (cbn -[trim]; now rewrite ?app_nil_r).
  cbn [sites]; destruct (str_eqb tag tag2) eqn:E.
  - apply str_eqb_eq in E; subst tag2.
    cbn [flat_map recordsAt pathOf]; rewrite app_nil_r.
    rewrite <- (@childLoop_sites tag attrs attrs2 children children2 p
                  children IH children2 0 (fun k => eq_refl)
                  (fun k => eq_refl)).
    unfold ownRecords; cbn -[Map_new]; rewrite str_eqb_refl; cbn -[Map_new].
    now rewrite app_nil_r, app_assoc.
  - cbn -[Map_new]; rewrite E; cbn; now rewrite app_nil_r.
Qed.

(** C2, as the code has it. The result of a comparison started at path
    [p] is, position after position in the order of the visit, what there
    is to report at the position, every record carrying as its path [p]
    followed by the path of that position in tree A: one segment
    [/TAG[i]] per level, TAG the [nodeName] of the element of tree A that
    is left and [i] the index, counted from 0, of the child entered (for
    an added child, its index in tree B). The records of the compared
    pair itself come first and carry [p], the empty string when the
    comparison starts at the root. *)
Theorem path_is_position_from_zero (node1 node2 : Node) (p : jsstring) :
  extractStructuralDifferences node1 node2 p
  = flat_map (fun position =>
                recordsAt node1 node2 position (p ++ pathOf node1 position))
      (sites node1 node2)
  /\ (forall position q r,
        In r (recordsAt node1 node2 position q) -> path r = Some q)
  /\ (forall r,
        In r (extractStructuralDifferences node1 node2 p) ->
        exists position,
          In position (sites node1 node2)
          /\ In r (recordsAt node1 node2 position
                     (p ++ pathOf node1 position))
          /\ path r = Some (p ++ pathOf node1 position))
  /\ (exists below,
        extractStructuralDifferences node1 node2 p
        = ownRecords node1 node2 p ++ below)
  /\ (forall r, In r (ownRecords node1 node2 p) -> path r = Some p).
Proof.
  split; [apply extract_by_sites|].
  split; [intros position q r; apply recordsAt_path|].
  split; [|split; [|intros r; apply ownRecords_path]].
  - intros r Hin; rewrite extract_by_sites in Hin.
    apply in_flat_map in Hin as [position [Hs Hr]].
    exists position; repeat split; [exact Hs | exact Hr |].
    eapply recordsAt_path, Hr.
  - assert (Hs : exists rest, sites node1 node2 = [] :: rest)
      by (destruct node1; eexists; reflexivity).
    destruct Hs as [rest Hs].
    exists (flat_map (fun position =>
                        recordsAt node1 node2 position
                          (p ++ pathOf node1 position)) rest).
    rewrite (extract_by_sites node1 node2 p), Hs.
    cbn [flat_map recordsAt pathOf]; now rewrite app_nil_r.
Qed.

Lemma path_is_position_witness :
  sites bodyA bodyB = [[]; [0]; [0; 0]; [1]]
  /\ pathOf bodyA [1] = lit "/BODY[1]"
  /\ extractStructuralDifferences bodyA bodyB []
     = flat_map (fun position =>
                   recordsAt bodyA bodyB position ([] ++ pathOf bodyA position))
         [[]; [0]; [0; 0]; [1]].
Proof.
  split; [reflexivity | split; [reflexivity|]].
  exact (proj1 (path_is_position_from_zero bodyA bodyB [])).
Defined.

(** C2, as the specification words it, does not hold: the paragraph
    added to an empty body is the first child, and its record has the
    path "/BODY[0]", which no descent numbered from 1 produces. *)
Lemma path_index_not_one_based :
  ~ (forall node1 node2 r,
       In r (extractStructuralDifferences node1 node2 []) ->
       exists segs,
         route node1 node2 segs /\ path r = Some (oneBasedPath segs)).
Proof.
  intros H.
  destruct (H emptyBody paragraphBody
              (addElement (lit "P") (lit "/BODY[0]") (lit "New paragraph"))
              (or_introl eq_refl)) as [segs [Hr Hp]].
  destruct segs as [|[t i] rest].
  - discriminate Hp.
  - simpl in Hr; destruct Hr as [_ [<- Hr]].
    destruct i as [|i].
    + simpl in Hr; subst rest; discriminate Hp.
    + destruct i; exact Hr.
Qed.

(** ** Properties of [generateDiffSummary] and [extractDiff] *)

Lemma split_no_separator (sep : N) (s : jsstring) :
  ~ In sep s -> split sep s = [s].
Proof.
  induction s as [|c s IH]; simpl; intros H; [reflexivity|].
  destruct (N.eqb_spec c sep) as [-> | _]; [tauto|].
  rewrite IH; tauto.
Qed.

Lemma split_at_separator (sep : N) (s rest : jsstring) :
  ~ In sep s -> split sep (s ++ sep :: rest) = s :: split sep rest.
Proof.
  induction s as [|c s IH]; simpl; intros H.
  - now rewrite N.eqb_refl.
  - destruct (N.eqb_spec c sep) as [-> | _]; [tauto|].
    rewrite IH; tauto.
Qed.

(** Joining parts that are non-empty and free of line breaks gives a text
    whose lines are these parts. *)
Lemma nonEmptyLines_join (parts : list jsstring) :
  (forall s, In s parts -> s <> [] /\ ~ In newline s) ->
  nonEmptyLines (join [newline] parts) = parts.
Proof.
  unfold nonEmptyLines.
  induction parts as [|s parts IH]; intros H; [reflexivity|].
  destruct (H s (or_introl eq_refl)) as [Hne Hnl].
  assert (Ht : truthy s = true) by (destruct s; [contradiction | reflexivity]).
  destruct parts as [|s' parts].
  - simpl; rewrite split_no_separator by assumption; simpl; now rewrite Ht.
  - change (join [newline] (s :: s' :: parts))
      with (s ++ newline :: join [newline] (s' :: parts)).
    rewrite split_at_separator by assumption.
    cbn [filter]; rewrite Ht, IH; [reflexivity|].
    intros x Hx; apply H; now right.
Qed.

Lemma summaryPart_nonempty (d : SimpleDiff) : summaryPart d <> [].
Proof.
  unfold summaryPart.
  repeat match goal with
         | |- context [if ?b then _ else _] => destruct b
         end; discriminate.
Qed.

(** C5, as the code has it. The [count] of the result of [extractDiff] is
    the length of [diffs], and [summary] is the rendered strings of the
    records, one per record, each non-empty, in the order of the records,
    joined by line breaks. When no rendered string holds a line break,
    the non-empty lines of [summary] are exactly these strings. *)
Theorem count_and_summary_consistent (doc1 doc2 : Node) :
  let res := extractDiff doc1 doc2 in
  count res = List.length (diffs res)
  /\ summary res = join [newline] (map summaryPart (diffs res))
  /\ List.length (map summaryPart (diffs res)) = count res
  /\ (forall d, In d (diffs res) -> summaryPart d <> [])
  /\ ((forall d, In d (diffs res) -> ~ In newline (summaryPart d)) ->
      nonEmptyLines (summary res) = map summaryPart (diffs res)).
Proof.
  cbn zeta; unfold extractDiff; cbn [count diffs summary].
  repeat split.
  - now rewrite length_map.
  - intros d _; apply summaryPart_nonempty.
  - intros H; apply nonEmptyLines_join.
    intros s Hs; apply in_map_iff in Hs as [d [<- Hd]].
    split; [apply summaryPart_nonempty | now apply H].
Qed.

Lemma count_and_summary_witness :
  nonEmptyLines (summary (extractDiff bodyA bodyB))
  = map summaryPart (diffs (extractDiff bodyA bodyB)).
Proof.
  apply (count_and_summary_consistent bodyA bodyB).
  intros d [<- | []]; vm_compute; intuition discriminate.
Defined.

(** C5, as the specification words it, does not hold: a paragraph of two
    lines added to an empty body is one record, and its text puts two
    non-empty lines into the summary. *)
Lemma summary_lines_exceed_count :
  ~ (forall doc1 doc2,
       List.length (nonEmptyLines (summary (extractDiff doc1 doc2)))
       = count (extractDiff doc1 doc2)).
Proof.
  intros H; specialize (H emptyBody twoLineBody).
  vm_compute in H; discriminate H.
Qed.

(** C10. The line rendered for a [modifyTextElement], [addAttribute],
    [removeAttribute] or [modifyAttribute] record does not depend on the
    [path] of the record: whatever the path, the line is the same. Only
    the lines for [addElement], [removeElement], [replaceElement] and
    [replaceNode] end in " at " followed by the path. *)
Theorem text_and_attribute_lines_omit_path (d : SimpleDiff) :
  (In (action d) textAndAttributeActions ->
   forall p, summaryPart (withPath p d) = summaryPart d)
  /\ (In (action d) childAndReplaceActions ->
      exists before,
        forall p, summaryPart (withPath p d) = before ++ lit " at " ++ show p).
Proof.
  destruct d as [a e c o n p0]; unfold withPath; cbn [action element content
    oldValue newValue path]; split; intros H.
  - simpl in H; intuition; subst a; reflexivity.
  - simpl in H; destruct H as [H | [H | [H | [H | []]]]]; subst a.
    + exists (lit "+ Added: <" ++ show e ++ lit ">" ++ contentSuffix c).
      intros p; unfold summaryPart; cbn [action element content path].
      change (str_eqb _ (lit "addElement")) with true; cbv iota.
      now rewrite <- !app_assoc.
    + exists (lit "- Removed: <" ++ show e ++ lit ">" ++ contentSuffix c).
      intros p; unfold summaryPart; cbn [action element content path].
      change (str_eqb _ (lit "addElement")) with false.
      change (str_eqb _ (lit "removeElement")) with true; cbv iota.
      now rewrite <- !app_assoc.
    + exists (leftRightArrow ++ lit " Replaced <" ++ show o
              ++ lit "> with <" ++ show n ++ lit ">").
      intros p; rewrite <- !app_assoc; reflexivity.
    + exists (leftRightArrow ++ lit " Replaced node " ++ show o
              ++ lit " with " ++ show n).
      intros p; rewrite <- !app_assoc; reflexivity.
Qed.

Lemma text_and_attribute_lines_witness :
  summaryPart (withPath (Some (lit "/BODY[0]/P[0]"))
                 (modifyTextElement [] (lit "Hello") (lit "Hello there")))
  = summaryPart (modifyTextElement [] (lit "Hello") (lit "Hello there"))
  /\ exists before,
       forall p,
         summaryPart (withPath p (addElement (lit "P") [] (lit "x")))
         = before ++ lit " at " ++ show p.
Proof.
  split.
  - apply (proj1 (text_and_attribute_lines_omit_path
                    (modifyTextElement [] (lit "Hello") (lit "Hello there")))).
    left; reflexivity.
  - apply (proj2 (text_and_attribute_lines_omit_path
                    (addElement (lit "P") [] (lit "x")))).
    left; reflexivity.
Defined.

(** ** What the comparison emits *)

Lemma compare_same (T : Node) (p : jsstring) :
  extractStructuralDifferences T T p = [].
Proof.
  revert p; induction T as [tag attrs children IH | data | data]
    using Node_forall_ind; intros p.
  - cbn -[Map_new]; rewrite str_eqb_refl; cbn -[Map_new].
    rewrite addedOrModified_same, removed_same, childLoop_same;
      auto using Map_get_in, Map_new_NoDup.
  - cbn; now rewrite str_eqb_refl.
  - reflexivity.
Qed.

Lemma truthy_nonempty (s : jsstring) : truthy s = true -> s <> [].
Proof. destruct s; [discriminate | discriminate]. Qed.

Lemma str_eqb_false (a b : jsstring) : str_eqb a b = false -> a <> b.
Proof. intros E ->; now rewrite str_eqb_refl in E. Qed.

Lemma addedOrModified_emitted (m : Map) (tag p : jsstring)
    (entries : list (jsstring * jsstring)) (r : SimpleDiff) :
  In r (addedOrModified m tag p entries) -> emitted r.
Proof.
  induction entries as [|[k v] entries IH]; simpl; [tauto|].
  rewrite in_app_iff; intros [H | H]; [|now apply IH].
  unfold Map_has in H; destruct (Map_get m k) as [v1|]; simpl in H.
  - destruct (str_eqb v1 v) eqn:E; simpl in H; [contradiction|].
    destruct H as [<- | []]; constructor; now apply str_eqb_false.
  - destruct H as [<- | []]; constructor.
Qed.

Lemma removed_emitted (m : Map) (tag p : jsstring)
    (entries : list (jsstring * jsstring)) (r : SimpleDiff) :
  In r (removed m tag p entries) -> emitted r.
Proof.
  induction entries as [|[k v] entries IH]; simpl; [tauto|].
  rewrite in_app_iff; intros [H | H]; [|now apply IH].
  destruct (Map_has m k); simpl in H; [contradiction|].
  destruct H as [<- | []]; constructor.
Qed.

(** Every record of a comparison is one of the eight the source pushes,
    pushed under the condition the source tests. *)
Lemma extract_emitted (node1 node2 : Node) (p : jsstring) (r : SimpleDiff) :
  In r (extractStructuralDifferences node1 node2 p) -> emitted r.
Proof.
  revert node2 p r.
  induction node1 as [tag attrs children IH | data | data]
    using Node_forall_ind; intros node2 p r Hin.
  - destruct node2 as [tag2 attrs2 children2 | data2 | data2];
      cbn -[Map_new] in Hin.
    + destruct (str_eqb tag tag2) eqn:Etag; cbn -[Map_new] in Hin.
      * rewrite !in_app_iff in Hin; destruct Hin as [H | [H | H]].
        { eapply addedOrModified_emitted, H. }
        { eapply removed_emitted, H. }
        rewrite childLoop_indexed in H.
        apply in_flat_map in H as [k [_ H]]; simpl in H.
        destruct (nth_error children k) as [c1|] eqn:E1;
          destruct (nth_error children2 k) as [c2|] eqn:E2; simpl in H.
        { rewrite Forall_forall in IH.
          exact (IH c1 (nth_error_In _ _ E1) c2 _ _ H). }
        { destruct H as [<- | []]; constructor. }
        { destruct H as [<- | []]; constructor. }
        { contradiction. }
      * destruct Hin as [<- | []]; constructor; now apply str_eqb_false.
    + destruct Hin as [<- | []].
      apply (emitted_replaceNode p (Element tag attrs children) (Text data2));
        discriminate.
    + destruct Hin as [<- | []].
      apply (emitted_replaceNode p (Element tag attrs children)
               (Comment data2)); discriminate.
  - destruct node2 as [tag2 attrs2 children2 | data2 | data2];
      cbn -[trim] in Hin.
    + destruct Hin as [<- | []].
      apply (emitted_replaceNode p (Text data)
               (Element tag2 attrs2 children2)); discriminate.
    + destruct (str_eqb (trim data) (trim data2)) eqn:E;
        [contradiction|].
      destruct (truthy (trim data)) eqn:E1; [|contradiction].
      destruct (truthy (trim data2)) eqn:E2; [|contradiction].
      destruct Hin as [<- | []].
      constructor; auto using str_eqb_false, truthy_nonempty.
    + destruct Hin as [<- | []].
      apply (emitted_replaceNode p (Text data) (Comment data2)); discriminate.
  - destruct node2 as [tag2 attrs2 children2 | data2 | data2];
      cbn in Hin; try contradiction; destruct Hin as [<- | []].
    + apply (emitted_replaceNode p (Comment data)
               (Element tag2 attrs2 children2)); discriminate.
    + apply (emitted_replaceNode p (Comment data) (Text data2)); discriminate.
Qed.

(** ** White space *)

Lemma trimStart_startsClean (s : jsstring) : startsClean (trimStart s).
Proof.
  induction s as [|c s IH]; simpl; [exact I|].
  destruct (isWhiteSpace c) eqn:E; [exact IH | exact E].
Qed.

Lemma trimStart_clean (s : jsstring) : startsClean s -> trimStart s = s.
Proof. destruct s as [|c s]; simpl; [reflexivity | now intros ->]. Qed.

Lemma trimStart_snoc (l : jsstring) (c : N) :
  isWhiteSpace c = false -> exists l', trimStart (l ++ [c]) = l' ++ [c].
Proof.
  intros Hc; induction l as [|a l IH]; simpl.
  - exists []; now rewrite Hc.
  - destruct (isWhiteSpace a); [exact IH | now exists (a :: l)].
Qed.

Lemma trimEnd_startsClean (s : jsstring) :
  startsClean s -> startsClean (trimEnd s).
Proof.
  destruct s as [|c s]; simpl; [intros _; exact I|].
  intros Hc; unfold trimEnd; simpl.
  destruct (@trimStart_snoc (rev s) c Hc) as [l' ->].
  now rewrite rev_app_distr.
Qed.

(** [trim] leaves nothing to trim. *)
Lemma trim_trim (s : jsstring) : trim (trim s) = trim s.
Proof.
  unfold trim at 1.
  rewrite (trimStart_clean (trim s))
    by apply trimEnd_startsClean, trimStart_startsClean.
  unfold trim, trimEnd; rewrite rev_involutive.
  now rewrite (trimStart_clean (trimStart _)) by apply trimStart_startsClean.
Qed.

(** ** Further properties of the comparison *)

(** X1 (tag mismatch). Two elements whose tag names differ yield exactly
    one [replaceElement] record, with the two tag names, at the current
    path; their attributes and children are not compared. *)
Theorem tag_mismatch_single_replaceElement
    (tag1 tag2 : jsstring) (attrs1 attrs2 : list (jsstring * jsstring))
    (children1 children2 : list Node) (p : jsstring) :
  tag1 <> tag2 ->
  extractStructuralDifferences (Element tag1 attrs1 children1)
    (Element tag2 attrs2 children2) p
  = [mkDiff (lit "replaceElement") None None (Some tag1) (Some tag2) (Some p)].
Proof.
  intros H; cbn -[Map_new]; now rewrite (str_eqb_neq H).
Qed.

Lemma tag_mismatch_witness :
  extractStructuralDifferences
    (el "DIV" [("id", "a")] [txt "x"]) (el "SECTION" [] [txt "y"; txt "z"])
    (lit "/BODY[0]")
  = [mkDiff (lit "replaceElement") None None (Some (lit "DIV"))
       (Some (lit "SECTION")) (Some (lit "/BODY[0]"))].
Proof.
  apply (@tag_mismatch_single_replaceElement (lit "DIV") (lit "SECTION")).
  vm_compute; discriminate.
Defined.

(** X2 (known actions). Every record the comparison returns has one of
    the eight actions [generateDiffSummary] has a case for, so its
    summary line is never the "? Unknown action" line. *)
Theorem emitted_actions_known (node1 node2 : Node) (p : jsstring)
    (r : SimpleDiff) :
  In r (extractStructuralDifferences node1 node2 p) ->
  In (action r) knownActions
  /\ summaryPart r <> lit "? Unknown action: " ++ action r.
Proof.
  intros H; apply extract_emitted in H.
  destruct H; (split; [simpl; auto 10 | unfold summaryPart; simpl; discriminate]).
Qed.

Lemma emitted_actions_known_witness :
  In (lit "addElement") knownActions
  /\ summaryPart (addElement (lit "P") (lit "/BODY[1]") (lit "New paragraph"))
     <> lit "? Unknown action: " ++ lit "addElement".
Proof.
  apply (@emitted_actions_known bodyA bodyB []
           (addElement (lit "P") (lit "/BODY[1]") (lit "New paragraph"))).
  left; reflexivity.
Defined.

(** X3 (fields set). Every record the comparison returns has its [path]
    set, and has set each field the summary template of its action
    prints: [element] and [content] for added and removed children and
    attributes, [element], [oldValue] and [newValue] for a modified
    attribute, [oldValue] and [newValue] for a modified text and for the
    two replacements. *)
Theorem emitted_fields_set (node1 node2 : Node) (p : jsstring)
    (r : SimpleDiff) :
  In r (extractStructuralDifferences node1 node2 p) ->
  path r <> None
  /\ (In (action r)
        [lit "addElement"; lit "removeElement"; lit "addAttribute";
         lit "removeAttribute"] ->
      element r <> None /\ content r <> None)
  /\ (action r = lit "modifyAttribute" -> element r <> None)
  /\ (In (action r)
        [lit "modifyTextElement"; lit "modifyAttribute";
         lit "replaceElement"; lit "replaceNode"] ->
      oldValue r <> None /\ newValue r <> None).
Proof.
  intros H; apply extract_emitted in H.
  destruct H; simpl; repeat split; try discriminate;
    intros Hc; exfalso; intuition discriminate.
Qed.

Lemma emitted_fields_set_witness :
  let r := addElement (lit "P") (lit "/BODY[1]") (lit "New paragraph") in
  path r <> None
  /\ (In (action r)
        [lit "addElement"; lit "removeElement"; lit "addAttribute";
         lit "removeAttribute"] ->
      element r <> None /\ content r <> None)
  /\ (action r = lit "modifyAttribute" -> element r <> None)
  /\ (In (action r)
        [lit "modifyTextElement"; lit "modifyAttribute";
         lit "replaceElement"; lit "replaceNode"] ->
      oldValue r <> None /\ newValue r <> None).
Proof.
  apply (@emitted_fields_set bodyA bodyB []
           (addElement (lit "P") (lit "/BODY[1]") (lit "New paragraph"))).
  left; reflexivity.
Defined.

(** X4 (preview bound). The [content] of an [addElement] or
    [removeElement] record, the text preview of the added or removed
    child, is at most 50 code units long. *)
Theorem child_preview_at_most_50 (node1 node2 : Node) (p : jsstring)
    (r : SimpleDiff) :
  In r (extractStructuralDifferences node1 node2 p) ->
  action r = lit "addElement" \/ action r = lit "removeElement" ->
  exists c, content r = Some c /\ List.length c <= 50.
Proof.
  intros H Ha; apply extract_emitted in H.
  destruct H; simpl in Ha; destruct Ha as [Ha | Ha]; try discriminate Ha;
    eexists; (split; [reflexivity | apply firstn_le_length]).
Qed.

Lemma child_preview_witness :
  exists c, Some (lit "New paragraph") = Some c /\ List.length c <= 50.
Proof.
  apply (@child_preview_at_most_50 bodyA bodyB []
           (addElement (lit "P") (lit "/BODY[1]") (lit "New paragraph"))).
  - left; reflexivity.
  - left; reflexivity.
Defined.

Lemma attrText_value_inj (name v1 v2 : jsstring) :
  attrText name (Some v1) = attrText name (Some v2) -> v1 = v2.
Proof.
  unfold attrText; simpl; intros H.
  apply app_inv_head in H; injection H as H.
  now apply app_inv_tail in H.
Qed.

(** X5 (real changes only). A [modifyTextElement], [modifyAttribute] or
    [replaceElement] record never reports a change between equal values:
    its [oldValue] and [newValue] are set and different. The two values
    of a [modifyTextElement] record are moreover non-empty and carry no
    white space at either end. *)
Theorem modification_values_differ (node1 node2 : Node) (p : jsstring)
    (r : SimpleDiff) :
  In r (extractStructuralDifferences node1 node2 p) ->
  In (action r)
    [lit "modifyTextElement"; lit "modifyAttribute"; lit "replaceElement"] ->
  exists old new,
    oldValue r = Some old /\ newValue r = Some new /\ old <> new
    /\ (action r = lit "modifyTextElement" ->
        old <> [] /\ new <> [] /\ trim old = old /\ trim new = new).
Proof.
  intros H Ha; apply extract_emitted in H.
  destruct H; simpl in Ha; try (exfalso; intuition discriminate);
    do 2 eexists; (split; [reflexivity | split; [reflexivity | split]]);
    try assumption; try (intros Hc; discriminate Hc).
  - intros _; auto using trim_trim.
  - intros Hc; apply attrText_value_inj in Hc; contradiction.
Qed.

Lemma modification_values_witness :
  exists old new,
    Some (lit "Hello") = Some old /\ Some (lit "Hello there") = Some new
    /\ old <> new
    /\ (lit "modifyTextElement" = lit "modifyTextElement" ->
        old <> [] /\ new <> [] /\ trim old = old /\ trim new = new).
Proof.
  apply (@modification_values_differ (Text (lit " Hello "))
           (txt "Hello there") []
           (modifyTextElement [] (lit "Hello") (lit "Hello there"))).
  - left; reflexivity.
  - left; reflexivity.
Defined.

(** ** When nothing is reported *)

Lemma Map_get_Some_in (m : Map) (k v : jsstring) :
  Map_get m k = Some v -> In (k, v) m.
Proof.
  induction m as [|[k' v'] m IH]; simpl; [discriminate|].
  destruct (str_eqb k' k) eqn:E; intros H.
  - apply str_eqb_eq in E; inversion H; subst; now left.
  - right; now apply IH.
Qed.

Lemma addedOrModified_nil (m : Map) (tag p : jsstring)
    (entries : list (jsstring * jsstring)) :
  addedOrModified m tag p entries = [] ->
  forall k v, In (k, v) entries -> Map_get m k = Some v.
Proof.
  induction entries as [|[k0 v0] entries IH]; simpl; [tauto|].
  intros H; apply app_eq_nil in H as [H1 H2].
  intros k v [Heq | Hin]; [|now apply IH].
  inversion Heq; subst; unfold Map_has in H1.
  destruct (Map_get m k) as [v1|]; simpl in H1; [|discriminate].
  destruct (str_eqb v1 v) eqn:E; simpl in H1; [|discriminate].
  apply str_eqb_eq in E; now subst.
Qed.

Lemma removed_nil (m : Map) (tag p : jsstring)
    (entries : list (jsstring * jsstring)) :
  removed m tag p entries = [] <->
  forall k v, In (k, v) entries -> Map_has m k = true.
Proof.
  induction entries as [|[k0 v0] entries IH]; simpl; [tauto|].
  split.
  - intros H; apply app_eq_nil in H as [H1 H2].
    intros k v [Heq | Hin]; [|now apply (proj1 IH H2 k v)].
    inversion Heq; subst.
    destruct (Map_has m k); [reflexivity | discriminate].
  - intros H; rewrite (H k0 v0 (or_introl eq_refl)); simpl.
    apply IH; intros; apply (H k v); now right.
Qed.

(** The two attribute loops find nothing exactly when the two maps hold
    the same value, or none, under every name. *)
Lemma attribute_loops_nil (m1 m2 : Map) (tag p : jsstring) :
  NoDup (map fst m1) -> NoDup (map fst m2) ->
  (addedOrModified m1 tag p m2 = [] /\ removed m2 tag p m1 = [])
  <-> forall name, Map_get m1 name = Map_get m2 name.
Proof.
  intros N1 N2; split.
  - intros [Ha Hr] name.
    pose proof (@addedOrModified_nil m1 tag p m2 Ha) as Ha'.
    rewrite removed_nil in Hr.
    destruct (Map_get m2 name) as [v2|] eqn:E2.
    + apply Ha'; now apply Map_get_Some_in.
    + destruct (Map_get m1 name) as [v1|] eqn:E1; [|reflexivity].
      apply Map_get_Some_in, Hr in E1.
      unfold Map_has in E1; rewrite E2 in E1; discriminate.
  - intros H; split.
    + apply addedOrModified_same; intros k v Hin.
      rewrite H; now apply Map_get_in.
    + apply removed_nil; intros k v Hin.
      unfold Map_has; rewrite <- H, (@Map_get_in m1 k v N1 Hin); reflexivity.
Qed.

Lemma childLoop_nil (p tag : jsstring) (children1 : list Node) :
  Forall (fun c => forall node2 q,
            extractStructuralDifferences c node2 q = [] <-> unreported c node2)
    children1 ->
  forall children2 i,
    childLoop extractStructuralDifferences p tag children1 children2 i = []
    <-> Forall2 unreported children1 children2.
Proof.
  induction 1 as [|c1 rest1 Hc _ IH]; intros [|c2 rest2] i; simpl.
  - split; constructor.
  - split; [discriminate | intros H; inversion H].
  - split; [discriminate | intros H; inversion H].
  - split.
    + intros H; apply app_eq_nil in H as [H1 H2].
      constructor; [now apply (Hc c2 (childPath p tag i)) | now apply (IH rest2 (S i))].
    + intros H; inversion H; subst.
      assert (E1 : extractStructuralDifferences c1 c2 (childPath p tag i) = [])
        by now apply Hc.
      assert (E2 : childLoop extractStructuralDifferences p tag rest1 rest2
                     (S i) = []) by now apply IH.
      now rewrite E1, E2.
Qed.

Lemma compare_nil_iff (node1 node2 : Node) (p : jsstring) :
  extractStructuralDifferences node1 node2 p = [] <-> unreported node1 node2.
Proof.
  revert node2 p.
  induction node1 as [tag attrs children IH | data | data]
    using Node_forall_ind; intros [tag2 attrs2 children2 | data2 | data2] p;
    try (split; [discriminate | intros H; inversion H]).
  - cbn -[Map_new]; destruct (str_eqb tag tag2) eqn:E; cbn -[Map_new].
    + apply str_eqb_eq in E; subst tag2; split.
      * intros H; apply app_eq_nil in H as [H1 H2].
        apply app_eq_nil in H2 as [H2 H3].
        constructor.
        { apply (@attribute_loops_nil (Map_new attrs) (Map_new attrs2) tag p
                   (Map_new_NoDup attrs) (Map_new_NoDup attrs2)); now split. }
        { now apply (@childLoop_nil p tag children IH children2 0). }
      * intros H; inversion H as [| |? ? ? ? ? Hm Hc]; subst.
        apply (@attribute_loops_nil (Map_new attrs) (Map_new attrs2) tag p
                 (Map_new_NoDup attrs) (Map_new_NoDup attrs2)) in Hm
          as [-> ->].
        now apply (@childLoop_nil p tag children IH children2 0) in Hc as ->.
    + split; [discriminate|].
      intros H; inversion H; subst; now rewrite str_eqb_refl in E.
  - cbn -[trim]; split.
    + intros H; constructor.
      destruct (str_eqb (trim data) (trim data2)) eqn:E;
        [left; now apply str_eqb_eq|].
      destruct (trim data); [right; now left|].
      destruct (trim data2); [right; now right | discriminate].
    + intros H; inversion H as [d1 d2 Hor| |]; subst.
      destruct Hor as [Ht | [Ht | Ht]]; rewrite Ht; cbn -[trim].
      * now rewrite str_eqb_refl.
      * now rewrite andb_false_r.
      * now rewrite andb_false_r.
  - split; [intros _; constructor | reflexivity].
Qed.

(** X6 (silence). The comparison of two trees returns no record exactly
    when, position by position: two text nodes have the same trimmed
    text or one of the two trimmed texts is empty; two comments stand
    at the same place, whatever they hold; two elements have the same
    tag, the same value or none under every attribute name, and as many
    children, pairwise without a record. *)
Theorem no_record_iff_unreported (node1 node2 : Node) (p : jsstring) :
  extractStructuralDifferences node1 node2 p = [] <-> unreported node1 node2.
Proof. apply compare_nil_iff. Qed.

Lemma Map_set_fresh (m : Map) (k v : jsstring) :
  ~ In k (map fst m) -> Map_set m k v = m ++ [(k, v)].
Proof.
  induction m as [|[k' v'] m IH]; simpl; intros H; [reflexivity|].
  rewrite str_eqb_neq by tauto.
  rewrite IH by tauto; reflexivity.
Qed.

(** Built from entries of pairwise different names, a [Map] holds these
    entries in their order. *)
Lemma Map_new_distinct (entries : list (jsstring * jsstring)) :
  NoDup (map fst entries) -> Map_new entries = entries.
Proof.
  unfold Map_new.
  assert (H : forall m, NoDup (map fst (m ++ entries)) ->
    fold_left (fun m e => Map_set m (fst e) (snd e)) entries m = m ++ entries).
  { induction entries as [|[k v] entries IH]; intros m Hm; simpl.
    - now rewrite app_nil_r.
    - rewrite Map_set_fresh.
      + rewrite IH; rewrite <- app_assoc; [reflexivity | exact Hm].
      + rewrite map_app in Hm; simpl in Hm.
        apply NoDup_remove_2 in Hm.
        intros Hin; apply Hm, in_or_app; now left. }
  apply (H []).
Qed.

Lemma unreported_same (children : list Node) :
  Forall2 unreported children children.
Proof.
  induction children as [|c children IH]; constructor; [|exact IH].
  apply (compare_nil_iff c c []), compare_same.
Qed.

(** X7 (attribute order). The order in which an element lists its
    attributes does not matter: two elements of the same tag and the same
    children whose attributes, of pairwise different names, are the same
    up to their order yield no record. *)
Theorem attribute_order_irrelevant (tag : jsstring)
    (attrs1 attrs2 : list (jsstring * jsstring)) (children : list Node)
    (p : jsstring) :
  NoDup (map fst attrs1) ->
  Permutation attrs1 attrs2 ->
  extractStructuralDifferences (Element tag attrs1 children)
    (Element tag attrs2 children) p = [].
Proof.
  intros N1 HP.
  assert (N2 : NoDup (map fst attrs2))
    by (eapply Permutation_NoDup; [apply Permutation_map, HP | exact N1]).
  apply compare_nil_iff; constructor; [|apply unreported_same].
  intros name.
  rewrite (@Map_new_distinct attrs1 N1), (@Map_new_distinct attrs2 N2).
  destruct (Map_get attrs1 name) as [v|] eqn:E1.
  - symmetry; apply Map_get_in; [exact N2|].
    eapply Permutation_in; [exact HP | now apply Map_get_Some_in].
  - destruct (Map_get attrs2 name) as [v|] eqn:E2; [|reflexivity].
    apply Map_get_Some_in in E2.
    apply (Permutation_in _ (Permutation_sym HP)) in E2.
    apply (@Map_get_in attrs1 name v N1) in E2; congruence.
Qed.

Lemma attribute_order_witness :
  extractStructuralDifferences
    (el "A" [("href", "/x"); ("target", "_blank")] [txt "go"])
    (el "A" [("target", "_blank"); ("href", "/x")] [txt "go"]) [] = [].
Proof.
  apply attribute_order_irrelevant.
  - repeat constructor; simpl; intuition discriminate.
  - apply perm_swap.
Defined.

(** ** Children appended and children cut off *)

Lemma addedChildren_map (p tag : jsstring) (extra : list Node) (i : nat) :
  addedChildren p tag extra i
  = map (fun ic => addElement (nodeName (snd ic)) (childPath p tag (fst ic))
                     (substring0 50 (textContent (snd ic))))
      (combine (seq i (List.length extra)) extra).
Proof.
  revert i; induction extra as [|c extra IH]; intros i; simpl;
    [reflexivity | now rewrite IH].
Qed.

Lemma childLoop_appended (p tag : jsstring) (children extra : list Node)
    (i : nat) :
  childLoop extractStructuralDifferences p tag children (children ++ extra) i
  = addedChildren p tag extra (i + List.length children).
Proof.
  revert i; induction children as [|c children IH]; intros i; simpl.
  - now rewrite Nat.add_0_r.
  - now rewrite compare_same, IH, Nat.add_succ_r.
Qed.

Lemma childLoop_all_removed (p tag : jsstring) (extra : list Node) (i : nat) :
  childLoop extractStructuralDifferences p tag extra [] i
  = map (fun ic => removeElement (nodeName (snd ic))
                     (childPath p tag (fst ic))
                     (substring0 50 (textContent (snd ic))))
      (combine (seq i (List.length extra)) extra).
Proof.
  revert i; induction extra as [|c extra IH]; intros i; simpl;
    [reflexivity | now rewrite IH].
Qed.

Lemma childLoop_cut_off (p tag : jsstring) (children extra : list Node)
    (i : nat) :
  childLoop extractStructuralDifferences p tag (children ++ extra) children i
  = childLoop extractStructuralDifferences p tag extra []
      (i + List.length children).
Proof.
  revert i; induction children as [|c children IH]; intros i; simpl.
  - rewrite Nat.add_0_r; now destruct extra.
  - now rewrite compare_same, IH, Nat.add_succ_r.
Qed.

(** X8 (appended and cut-off children). When tree B is tree A with
    further children appended to the root element, the comparison returns
    exactly one [addElement] record per appended child, in order, each
    with the index of the child in B, its [nodeName] and the first 50 code
    units of its text; the appended subtrees are not descended into. With
    the two trees swapped it returns one [removeElement] record per child
    in the same way. *)
Theorem appended_children_one_record_each (tag : jsstring)
    (attrs : list (jsstring * jsstring)) (children extra : list Node)
    (p : jsstring) :
  extractStructuralDifferences (Element tag attrs children)
    (Element tag attrs (children ++ extra)) p
  = map (fun ic => addElement (nodeName (snd ic)) (childPath p tag (fst ic))
                     (substring0 50 (textContent (snd ic))))
      (combine (seq (List.length children) (List.length extra)) extra)
  /\ extractStructuralDifferences (Element tag attrs (children ++ extra))
       (Element tag attrs children) p
     = map (fun ic => removeElement (nodeName (snd ic))
                        (childPath p tag (fst ic))
                        (substring0 50 (textContent (snd ic))))
         (combine (seq (List.length children) (List.length extra)) extra).
Proof.
  split; cbn -[Map_new]; rewrite str_eqb_refl; cbn -[Map_new];
    rewrite addedOrModified_same, removed_same
      by auto using Map_get_in, Map_new_NoDup; simpl.
  - now rewrite childLoop_appended, addedChildren_map.
  - now rewrite childLoop_cut_off, childLoop_all_removed.
Qed.

(** ** The comparison read the other way round *)

Lemma str_eqb_sym (a b : jsstring) : str_eqb a b = str_eqb b a.
Proof.
  destruct (str_eqb a b) eqn:E.
  - apply str_eqb_eq in E; subst; now rewrite str_eqb_refl.
  - symmetry; apply str_eqb_neq; intros ->; now rewrite str_eqb_refl in E.
Qed.

Lemma addedOrModified_split (m : Map) (tag p : jsstring)
    (entries : list (jsstring * jsstring)) :
  Permutation (addedOrModified m tag p entries)
    (addedOnly m tag p entries
     ++ map (modifyRecord tag p) (changedValues false m entries)).
Proof.
  induction entries as [|[k v] entries IH]; simpl; [constructor|].
  unfold Map_has; destruct (Map_get m k) as [v1|]; simpl.
  - destruct (str_eqb v1 v); simpl; [exact IH|].
    now apply Permutation_cons_app.
  - now constructor.
Qed.

Lemma removed_mirror_added (m : Map) (tag p : jsstring)
    (entries : list (jsstring * jsstring)) :
  removed m tag p entries = map mirror (addedOnly m tag p entries)
  /\ addedOnly m tag p entries = map mirror (removed m tag p entries).
Proof.
  induction entries as [|[k v] entries [IH1 IH2]]; simpl; [now split|].
  destruct (Map_has m k); simpl; [now split|].
  rewrite <- IH1, <- IH2; now split.
Qed.

Lemma changedValues_in (swap : bool) (other entries : Map)
    (k a b : jsstring) :
  NoDup (map fst entries) ->
  In (k, a, b) (changedValues swap other entries)
  <-> exists v w,
        Map_get entries k = Some v /\ Map_get other k = Some w /\ w <> v
        /\ (a, b) = if swap then (v, w) else (w, v).
Proof.
  intros Hnd; unfold changedValues; rewrite in_flat_map; split.
  - intros [[k' v] [Hin H]]; simpl in H.
    destruct (Map_get other k') as [w|] eqn:Ew; [|contradiction].
    destruct (str_eqb w v) eqn:E; [contradiction|].
    destruct H as [H | []].
    exists v, w; destruct swap; inversion H; subst;
      repeat split; auto using Map_get_in, str_eqb_false.
  - intros [v [w [Hv [Hw [Hne Hab]]]]].
    exists (k, v); split; [now apply Map_get_Some_in|]; simpl.
    rewrite Hw, (str_eqb_neq Hne).
    destruct swap; inversion Hab; subst; now left.
Qed.

Lemma changedValues_NoDup (swap : bool) (other entries : Map) :
  NoDup (map fst entries) -> NoDup (changedValues swap other entries).
Proof.
  induction entries as [|[k v] entries IH]; simpl; intros Hnd;
    [constructor|].
  inversion Hnd as [|? ? Hnotin Hnd']; subst.
  destruct (Map_get other k) as [w|]; [|now apply IH].
  destruct (str_eqb w v); [now apply IH|]; simpl.
  constructor; [|now apply IH].
  intros Hin; apply Hnotin.
  assert (Hk : In (k, if swap then v else w, if swap then w else v)
                 (changedValues swap other entries))
    by (destruct swap; exact Hin).
  apply (changedValues_in swap other entries k _ _ Hnd') in Hk
    as [v' [_ [Hv' _]]].
  apply Map_get_Some_in in Hv'.
  change k with (fst (k, v')); now apply in_map.
Qed.

(** The names held with different values are the same whichever of the
    two maps is walked. *)
Lemma changedValues_swap (m1 m2 : Map) :
  NoDup (map fst m1) -> NoDup (map fst m2) ->
  Permutation (changedValues false m2 m1) (changedValues true m1 m2).
Proof.
  intros N1 N2; apply NoDup_Permutation; auto using changedValues_NoDup.
  intros [[k a] b].
  rewrite (changedValues_in false m2 m1 k a b N1),
    (changedValues_in true m1 m2 k a b N2).
  split; intros [v [w [Hv [Hw [Hne Hab]]]]]; exists w, v;
    repeat split; auto.
Qed.

Lemma modifyRecord_mirror (tag p : jsstring) (m entries : Map) :
  map mirror (map (modifyRecord tag p) (changedValues false m entries))
  = map (modifyRecord tag p) (changedValues true m entries).
Proof.
  induction entries as [|[k v] entries IH]; simpl; [reflexivity|].
  destruct (Map_get m k) as [w|]; [|exact IH].
  destruct (str_eqb w v); [exact IH|]; simpl; now rewrite IH.
Qed.

Lemma attribute_records_mirror (m1 m2 : Map) (tag p : jsstring) :
  NoDup (map fst m1) -> NoDup (map fst m2) ->
  Permutation (addedOrModified m2 tag p m1 ++ removed m1 tag p m2)
    (map mirror (addedOrModified m1 tag p m2 ++ removed m2 tag p m1)).
Proof.
  intros N1 N2.
  eapply Permutation_trans;
    [apply Permutation_app_tail, addedOrModified_split|].
  eapply Permutation_trans;
    [|apply Permutation_map, Permutation_app_tail, Permutation_sym,
        addedOrModified_split].
  rewrite !map_app, modifyRecord_mirror.
  rewrite <- (proj1 (removed_mirror_added m1 tag p m2)).
  rewrite <- (proj2 (removed_mirror_added m2 tag p m1)).
  eapply Permutation_trans; [apply Permutation_app_comm|].
  rewrite <- app_assoc; apply Permutation_app_head.
  eapply Permutation_trans; [apply Permutation_app_comm|].
  apply Permutation_app_tail, Permutation_map.
  now apply changedValues_swap.
Qed.

Lemma addedChildren_mirror (p tag : jsstring) (l : list Node) (i : nat) :
  childLoop extractStructuralDifferences p tag l [] i
  = map mirror (addedChildren p tag l i)
  /\ addedChildren p tag l i
     = map mirror (childLoop extractStructuralDifferences p tag l [] i).
Proof.
  revert i; induction l as [|c l IH]; intros i; simpl; [now split|].
  destruct (IH (S i)) as [IH1 IH2].
  rewrite <- IH1, <- IH2; now split.
Qed.

Lemma childLoop_mirror (p tag : jsstring) (children1 : list Node) :
  Forall (fun c => forall node2 q,
            Permutation (extractStructuralDifferences node2 c q)
              (map mirror (extractStructuralDifferences c node2 q)))
    children1 ->
  forall children2 i,
    Permutation
      (childLoop extractStructuralDifferences p tag children2 children1 i)
      (map mirror
         (childLoop extractStructuralDifferences p tag children1 children2 i)).
Proof.
  induction 1 as [|c1 rest1 Hc _ IH]; intros children2 i.
  - destruct children2 as [|c2 rest2]; [constructor|].
    rewrite (proj1 (addedChildren_mirror p tag (c2 :: rest2) i)).
    apply Permutation_refl.
  - destruct children2 as [|c2 rest2].
    + change (childLoop extractStructuralDifferences p tag [] (c1 :: rest1) i)
        with (addedChildren p tag (c1 :: rest1) i).
      rewrite (proj2 (addedChildren_mirror p tag (c1 :: rest1) i)).
      apply Permutation_refl.
    + simpl; rewrite map_app.
      apply Permutation_app; [apply Hc | apply IH].
Qed.

Lemma compare_mirror (node1 node2 : Node) (p : jsstring) :
  Permutation (extractStructuralDifferences node2 node1 p)
    (map mirror (extractStructuralDifferences node1 node2 p)).
Proof.
  revert node2 p.
  induction node1 as [tag attrs children IH | data | data]
    using Node_forall_ind; intros [tag2 attrs2 children2 | data2 | data2] p;
    try apply Permutation_refl.
  - cbn -[Map_new]; rewrite (str_eqb_sym tag2 tag).
    destruct (str_eqb tag tag2) eqn:E; cbn -[Map_new];
      [|apply Permutation_refl].
    apply str_eqb_eq in E; subst tag2.
    rewrite !app_assoc, map_app.
    apply Permutation_app.
    + apply attribute_records_mirror; apply Map_new_NoDup.
    + now apply childLoop_mirror.
  - cbn -[trim]; rewrite (str_eqb_sym (trim data2) (trim data)).
    destruct (str_eqb (trim data) (trim data2)); simpl;
      [apply Permutation_refl|].
    destruct (truthy (trim data)), (truthy (trim data2)); simpl;
      apply Permutation_refl.
Qed.

(** X9 (mirror). Comparing B against A returns the records of comparing
    A against B read the other way round: every added child or attribute
    as removed and every removed one as added, with the old and the new
    value of every modification and replacement exchanged, at the same
    paths. The two results hold the same records as often; only the
    attribute records of an element may come in another order. In
    particular both comparisons return equally many records. *)
Theorem mirrored_comparison (node1 node2 : Node) (p : jsstring) :
  Permutation (extractStructuralDifferences node2 node1 p)
    (map mirror (extractStructuralDifferences node1 node2 p))
  /\ List.length (extractStructuralDifferences node2 node1 p)
     = List.length (extractStructuralDifferences node1 node2 p).
Proof.
  split; [apply compare_mirror|].
  rewrite (Permutation_length (compare_mirror node1 node2 p)).
  apply length_map.
Qed.

(** ** Further properties of the summary *)

Lemma join_nil (sep : jsstring) (parts : list jsstring) :
  (forall s, In s parts -> s <> []) -> join sep parts = [] -> parts = [].
Proof.
  destruct parts as [|s [|s' rest]]; simpl; intros H E; [reflexivity | |].
  - subst s; exfalso; apply (H []); [now left | reflexivity].
  - apply app_eq_nil in E as [-> _]; exfalso.
    apply (H []); [now left | reflexivity].
Qed.

Lemma join_app (sep : jsstring) (a b : list jsstring) :
  a <> [] -> b <> [] ->
  join sep (a ++ b) = join sep a ++ sep ++ join sep b.
Proof.
  intros Ha Hb; induction a as [|s a IH]; [contradiction|].
  destruct a as [|s' a].
  - destruct b; [contradiction | reflexivity].
  - change (join sep ((s :: s' :: a) ++ b))
      with (s ++ sep ++ join sep ((s' :: a) ++ b)).
    rewrite IH by discriminate.
    change (join sep (s :: s' :: a)) with (s ++ sep ++ join sep (s' :: a)).
    now rewrite <- !app_assoc.
Qed.

(** X10 (empty summary). The summary of [extractDiff] is the empty string
    exactly when [count] is 0, and that is exactly when the comparison has
    nothing to report about the two bodies. *)
Theorem summary_empty_iff_no_record (doc1 doc2 : Node) :
  (summary (extractDiff doc1 doc2) = [] <-> count (extractDiff doc1 doc2) = 0)
  /\ (count (extractDiff doc1 doc2) = 0 <-> unreported doc1 doc2).
Proof.
  unfold extractDiff; cbn [summary count]; split.
  - split; intros H.
    + apply join_nil in H.
      * unfold summaryParts in H; apply map_eq_nil in H; now rewrite H.
      * intros s Hs; apply in_map_iff in Hs as [d [<- _]].
        apply summaryPart_nonempty.
    + apply length_zero_iff_nil in H; now rewrite H.
  - rewrite length_zero_iff_nil; apply compare_nil_iff.
Qed.

(** X11 (summary of a concatenation). The summary of two non-empty
    sequences of records, one after the other, is the summary of the first,
    a line break, and the summary of the second. *)
Theorem summary_of_concatenation (ds1 ds2 : list SimpleDiff) :
  ds1 <> [] -> ds2 <> [] ->
  generateDiffSummary (ds1 ++ ds2)
  = generateDiffSummary ds1 ++ [newline] ++ generateDiffSummary ds2.
Proof.
  intros H1 H2; unfold generateDiffSummary, summaryParts.
  rewrite map_app; apply join_app.
  - destruct ds1; [contradiction | discriminate].
  - destruct ds2; [contradiction | discriminate].
Qed.

Lemma summary_of_concatenation_witness :
  generateDiffSummary
    ([addAttribute (lit "A") [] (lit "x")]
     ++ [removeElement (lit "P") (lit "/BODY[0]") (lit "y")])
  = generateDiffSummary [addAttribute (lit "A") [] (lit "x")]
    ++ [newline]
    ++ generateDiffSummary [removeElement (lit "P") (lit "/BODY[0]") (lit "y")].
Proof.
  apply summary_of_concatenation; discriminate.
Defined.

(** C9, as the code has it. A record whose action is none of the eight
    the [switch] knows is rendered as the string "? Unknown action: "
    followed by the action; it is neither dropped nor a failure: in the
    summary that string stands at the place of the record, a line break
    between it and the summary of the records before and of those after.
    Every record, known or not, gives one such string; where no string
    of the summary holds a line break, these strings are its lines, one
    per record. *)
Theorem unknown_action_rendered (d : SimpleDiff) :
  ~ In (action d) knownActions ->
  summaryPart d = lit "? Unknown action: " ++ action d
  /\ (forall before after,
        generateDiffSummary (before ++ d :: after)
        = match before with
          | [] => []
          | _ :: _ => generateDiffSummary before ++ [newline]
          end
          ++ (lit "? Unknown action: " ++ action d)
          ++ match after with
             | [] => []
             | _ :: _ => [newline] ++ generateDiffSummary after
             end)
  /\ (forall before after,
        (forall x, In x (before ++ d :: after) ->
                   ~ In newline (summaryPart x)) ->
        nonEmptyLines (generateDiffSummary (before ++ d :: after))
        = map summaryPart before
          ++ (lit "? Unknown action: " ++ action d) :: map summaryPart after).
Proof.
  intros H.
  assert (Hd : summaryPart d = lit "? Unknown action: " ++ action d).
  { unfold summaryPart.
    rewrite !str_eqb_neq; [reflexivity | ..];
      intros E; apply H; rewrite E; simpl; intuition. }
  split; [exact Hd | split].
  - intros before after; unfold generateDiffSummary, summaryParts.
    rewrite map_app; cbn [map]; rewrite Hd.
    assert (Ha : join [newline]
                   ((lit "? Unknown action: " ++ action d)
                    :: map summaryPart after)
                 = (lit "? Unknown action: " ++ action d)
                   ++ match after with
                      | [] => []
                      | _ :: _ => [newline]
                                  ++ join [newline] (map summaryPart after)
                      end).
    { destruct after as [|a after]; [simpl; now rewrite app_nil_r|].
      reflexivity. }
    destruct before as [|b before]; [exact Ha|].
    rewrite join_app by discriminate.
    rewrite <- !app_assoc; do 2 f_equal; exact Ha.
  - intros before after Hnl; unfold generateDiffSummary, summaryParts.
    rewrite nonEmptyLines_join.
    + rewrite map_app; cbn [map]; now rewrite Hd.
    + intros s Hs; apply in_map_iff in Hs as [x [<- Hx]].
      split; [apply summaryPart_nonempty | now apply Hnl].
Qed.

Lemma unknown_action_rendered_witness :
  let d := mkDiff (lit "moveElement") (Some (lit "LI")) None None None
             (Some (lit "/BODY[0]")) in
  summaryPart d = lit "? Unknown action: moveElement"
  /\ generateDiffSummary [addElement (lit "P") (lit "/BODY[1]") (lit "x"); d]
     = (generateDiffSummary [addElement (lit "P") (lit "/BODY[1]") (lit "x")]
        ++ [newline])
       ++ lit "? Unknown action: moveElement" ++ [].
Proof.
  cbn zeta.
  destruct (@unknown_action_rendered
              (mkDiff (lit "moveElement") (Some (lit "LI")) None None None
                 (Some (lit "/BODY[0]")))) as [H1 [H2 _]].
  - vm_compute; intuition discriminate.
  - split; [exact H1|].
    exact (H2 [addElement (lit "P") (lit "/BODY[1]") (lit "x")] []).
Defined.

(** C9, as the specification words it, does not hold: of the two records
    below, the added paragraph of two lines and a record of unknown
    action, the summary has three lines, not one per record. *)
Lemma one_line_per_record_fails :
  ~ (forall ds : list SimpleDiff,
       List.length (nonEmptyLines (generateDiffSummary ds)) = List.length ds).
Proof.
  intros H.
  specialize (H [addElement (lit "P") (lit "/BODY[0]") twoLines;
                 mkDiff (lit "moveElement") (Some (lit "LI")) None None None
                   (Some (lit "/BODY[0]"))]).
  vm_compute in H; discriminate H.
Qed.

(** ** Properties of the command line *)

Lemma validateOptions_accepts_iff_aux (options : CLIOptions) :
  validateOptions options = Returns tt
  <-> xorb (isSet (url1 options)) (isSet (file1 options)) = true
      /\ xorb (isSet (url2 options)) (isSet (file2 options)) = true.
Proof.
  unfold validateOptions, orElse.
  destruct (isSet (url1 options)) eqn:U1, (isSet (file1 options)) eqn:F1,
    (isSet (url2 options)) eqn:U2, (isSet (file2 options)) eqn:F2;
    cbn; rewrite ?U1, ?F1, ?U2, ?F2; cbn;
    (split; [intros H; try discriminate H; now split
            | intros [H1 H2]; try discriminate; reflexivity]).
Qed.

(** X12 (validation). [validateOptions] returns exactly when, for each of
    the two sources, one of the url and the file is given, as a non-empty
    string, and not both; in every other case the process exits with
    code 1. *)
Theorem validateOptions_accepts_iff (options : CLIOptions) :
  (validateOptions options = Returns tt
   <-> xorb (isSet (url1 options)) (isSet (file1 options)) = true
       /\ xorb (isSet (url2 options)) (isSet (file2 options)) = true)
  /\ forall code why, validateOptions options = Exits code why -> code = 1.
Proof.
  split; [apply validateOptions_accepts_iff_aux|].
  unfold validateOptions, orElse; intros code why.
  destruct (isSet (url1 options)) eqn:U1, (isSet (file1 options)) eqn:F1,
    (isSet (url2 options)) eqn:U2, (isSet (file2 options)) eqn:F2;
    cbn; rewrite ?U1, ?F1, ?U2, ?F2; cbn;
    intros H; inversion H; reflexivity.
Qed.

(** X13 (what is fetched). Once [validateOptions] has returned, each of
    the two sources [compare] fetches is a non-empty string, read as a
    file exactly when it is the file option and fetched as a URL exactly
    when it is the url option. Without the validation this fails: with
    both [--url1] and [--file1] given, the URL would be read as a file. *)
Theorem validated_sources_consistent (options : CLIOptions) :
  (validateOptions options = Returns tt ->
   let '((source1, isFile1), (source2, isFile2)) := fetchArguments options in
   isSet source1 = true /\ isSet source2 = true
   /\ source1 = (if isFile1 then file1 options else url1 options)
   /\ source2 = (if isFile2 then file2 options else url2 options))
  /\ (isSet (url1 options) = true -> isSet (file1 options) = true ->
      fst (fetchArguments options) = (url1 options, true)).
Proof.
  split.
  - intros H; apply validateOptions_accepts_iff_aux in H as [H1 H2].
    unfold fetchArguments, orElse.
    destruct (isSet (url1 options)) eqn:U1, (isSet (file1 options)) eqn:F1;
      try discriminate H1;
      destruct (isSet (url2 options)) eqn:U2, (isSet (file2 options)) eqn:F2;
      try discriminate H2; auto.
  - intros U1 F1; unfold fetchArguments, orElse; now rewrite U1, F1.
Qed.

Lemma validateOptions_witness :
  validateOptions
    (mkOptions (Some (lit "http://localhost:3000")) None None
       (Some (lit "./test/v2.html")) None None None)
  = Returns tt.
Proof.
  apply (proj1 (validateOptions_accepts_iff
                  (mkOptions (Some (lit "http://localhost:3000")) None None
                     (Some (lit "./test/v2.html")) None None None))).
  split; reflexivity.
Defined.

Lemma validated_sources_witness :
  let options :=
    mkOptions (Some (lit "http://localhost:3000")) None None
      (Some (lit "./test/v2.html")) None None None in
  fetchArguments options
  = ((Some (lit "http://localhost:3000"), false),
     (Some (lit "./test/v2.html"), true))
  /\ isSet (Some (lit "http://localhost:3000")) = true
  /\ isSet (Some (lit "./test/v2.html")) = true.
Proof.
  cbn zeta.
  pose proof (proj1 (validated_sources_consistent
                       (mkOptions (Some (lit "http://localhost:3000")) None
                          None (Some (lit "./test/v2.html")) None None None))
                eq_refl) as H.
  cbn in H; destruct H as [H1 [H2 _]].
  split; [reflexivity | split; [exact H1 | exact H2]].
Defined.

Ltac in_tail Hc := first [right; right; exact Hc | right; exact Hc].

Ltac field_unchanged IHfields :=
  destruct IHfields as (I1 & I2 & I3 & I4 & I5 & I6 & I7);
  cbn in I1, I2, I3, I4, I5, I6, I7;
  repeat split; intros Hn;
  first [ exfalso; apply Hn; left; reflexivity
        | apply I1; intros Hc; apply Hn; in_tail Hc
        | apply I2; intros Hc; apply Hn; in_tail Hc
        | apply I3; intros Hc; apply Hn; in_tail Hc
        | apply I4; intros Hc; apply Hn; in_tail Hc
        | apply I5; intros Hc; apply Hn; in_tail Hc
        | apply I6; intros Hc; apply Hn; in_tail Hc
        | apply I7; intros Hc; apply Hn; in_tail Hc ].

Lemma parseLoop_fields (n : nat) :
  forall (args : list jsstring) (o o' : CLIOptions),
    List.length args <= n ->
    parseLoop o args = Returns o' ->
    (~ In (lit "--url1") args -> url1 o' = url1 o)
    /\ (~ In (lit "--url2") args -> url2 o' = url2 o)
    /\ (~ In (lit "--file1") args -> file1 o' = file1 o)
    /\ (~ In (lit "--file2") args -> file2 o' = file2 o)
    /\ (~ In (lit "--json") args -> json o' = json o)
    /\ (~ In (lit "--puppeteer") args -> puppeteer o' = puppeteer o)
    /\ (~ In (lit "--model") args -> model o' = model o).
Proof.
  induction n as [|n IH]; intros args o o' Hlen H.
  - destruct args; [|simpl in Hlen; lia].
    inversion H; subst; repeat split; reflexivity.
  - destruct args as [|arg rest];
      [inversion H; subst; repeat split; reflexivity|].
    cbn [parseLoop] in H; simpl in Hlen.
    repeat match type of H with
      | context [if str_eqb arg ?x then _ else _] =>
          let E := fresh "E" in
          destruct (str_eqb arg x) eqn:E;
          [apply str_eqb_eq in E; subst arg|]
      end.
    1-4, 7: destruct rest as [|nextArg rest'];
      [ inversion H; subst; cbn;
        repeat split; intros Hn; first
          [ reflexivity | exfalso; apply Hn; left; reflexivity ]
      | apply IH in H; [|simpl in Hlen; lia]; field_unchanged H ].
    1-2: apply IH in H; [|lia]; field_unchanged H.
    destruct (str_eqb arg (lit "--help") || str_eqb arg (lit "-h"));
      [discriminate H|].
    apply IH in H; [|lia]; field_unchanged H.
Qed.

Lemma parseLoop_returns (n : nat) :
  forall (args : list jsstring) (o : CLIOptions),
    List.length args <= n ->
    ~ In (lit "--help") args -> ~ In (lit "-h") args ->
    exists o', parseLoop o args = Returns o'.
Proof.
  induction n as [|n IH]; intros args o Hlen H1 H2.
  - destruct args; [now eexists | simpl in Hlen; lia].
  - destruct args as [|arg rest]; [now eexists|].
    cbn [parseLoop]; simpl in Hlen.
    repeat match goal with
      | |- context [if str_eqb arg ?x then _ else _] =>
          let E := fresh "E" in
          destruct (str_eqb arg x) eqn:E;
          [apply str_eqb_eq in E; subst arg|]
      end.
    1-4, 7: destruct rest as [|nextArg rest']; [now eexists|];
      apply IH; [simpl in Hlen; lia | |]; intros Hc;
      [apply H1 | apply H2]; right; right; exact Hc.
    1-2: apply IH; [lia | |]; intros Hc; [apply H1 | apply H2];
      right; exact Hc.
    destruct (str_eqb arg (lit "--help")) eqn:Eh;
      [apply str_eqb_eq in Eh; exfalso; apply H1; now left|].
    destruct (str_eqb arg (lit "-h")) eqn:Eh';
      [apply str_eqb_eq in Eh'; exfalso; apply H2; now left|].
    apply IH; [lia | |]; intros Hc; [apply H1 | apply H2]; right; exact Hc.
Qed.

(** X14 (only named options are set). Unless [--help] or [-h] is among
    the arguments, [parseArgs] returns; and in the options it returns, a
    field whose option name does not occur among the arguments is left
    unset. *)
Theorem parseArgs_sets_only_named_options (argv : list jsstring) :
  (~ In (lit "--help") (skipn 2 argv) -> ~ In (lit "-h") (skipn 2 argv) ->
   exists options, parseArgs argv = Returns options)
  /\ forall options,
       parseArgs argv = Returns options ->
       (~ In (lit "--url1") (skipn 2 argv) -> url1 options = None)
       /\ (~ In (lit "--url2") (skipn 2 argv) -> url2 options = None)
       /\ (~ In (lit "--file1") (skipn 2 argv) -> file1 options = None)
       /\ (~ In (lit "--file2") (skipn 2 argv) -> file2 options = None)
       /\ (~ In (lit "--json") (skipn 2 argv) -> json options = None)
       /\ (~ In (lit "--puppeteer") (skipn 2 argv) ->
           puppeteer options = None)
       /\ (~ In (lit "--model") (skipn 2 argv) -> model options = None).
Proof.
  unfold parseArgs; split.
  - intros H1 H2.
    now apply (parseLoop_returns (n := List.length (skipn 2 argv))).
  - intros options H.
    now apply (parseLoop_fields (n := List.length (skipn 2 argv))
                 (skipn 2 argv) noOptions).
Qed.

Lemma parseArgs_witness :
  (exists options,
     parseArgs [lit "bun"; lit "src/cli.ts"; lit "--url1"; lit "a"; lit "--json"]
     = Returns options)
  /\ file1 (mkOptions (Some (lit "a")) None None None (Some true) None None)
     = None.
Proof.
  pose proof (parseArgs_sets_only_named_options
                [lit "bun"; lit "src/cli.ts"; lit "--url1"; lit "a";
                 lit "--json"]) as [H1 H2].
  split.
  - apply H1; vm_compute; intuition discriminate.
  - refine (proj1 (proj2 (proj2
              (H2 (mkOptions (Some (lit "a")) None None None (Some true) None
                     None) eq_refl))) _).
    vm_compute; intuition discriminate.
Defined.

(** X15 (help). When [--help] or [-h] stands after arguments none of
    which is an option that takes a value, [parseArgs] prints the help
    and exits with code 0, whatever was parsed before and whatever
    follows. Directly after an option that takes a value, the same word
    is stored as the value of that option, is not read as an option, and
    parsing goes on with the arguments after it. *)
Theorem help_exits_unless_taken_as_value (options : CLIOptions)
    (before after : list jsstring) (h : jsstring) :
  (forall a, In a before -> ~ In a valueOptions) ->
  In h [lit "--help"; lit "-h"] ->
  parseLoop options (before ++ h :: after) = Exits 0 HelpPrinted
  /\ (forall opt, In opt valueOptions ->
        exists options', parseLoop options [opt; h] = Returns options')
  /\ forall rest,
       parseLoop options (lit "--url1" :: h :: rest)
       = parseLoop (mkOptions (Some h) (url2 options) (file1 options)
                      (file2 options) (json options) (puppeteer options)
                      (model options)) rest
       /\ parseLoop options (lit "--url2" :: h :: rest)
          = parseLoop (mkOptions (url1 options) (Some h) (file1 options)
                         (file2 options) (json options) (puppeteer options)
                         (model options)) rest
       /\ parseLoop options (lit "--file1" :: h :: rest)
          = parseLoop (mkOptions (url1 options) (url2 options) (Some h)
                         (file2 options) (json options) (puppeteer options)
                         (model options)) rest
       /\ parseLoop options (lit "--file2" :: h :: rest)
          = parseLoop (mkOptions (url1 options) (url2 options)
                         (file1 options) (Some h) (json options)
                         (puppeteer options) (model options)) rest
       /\ parseLoop options (lit "--model" :: h :: rest)
          = parseLoop (mkOptions (url1 options) (url2 options)
                         (file1 options) (file2 options) (json options)
                         (puppeteer options) (Some h)) rest.
Proof.
  intros Hb Hh; split; [|split].
  - revert options; induction before as [|arg before IH]; intros options.
    + destruct Hh as [<- | [<- | []]]; reflexivity.
    + assert (Hv : forall x, In x valueOptions -> str_eqb arg x = false).
      { intros x Hx; apply str_eqb_neq; intros ->.
        now apply (Hb x (or_introl eq_refl)). }
      cbn [app parseLoop].
      rewrite (Hv (lit "--url1")), (Hv (lit "--url2")), (Hv (lit "--file1")),
        (Hv (lit "--file2")), (Hv (lit "--model")) by (simpl; auto 10).
      assert (Hb' : forall a, In a before -> ~ In a valueOptions)
        by (intros a Ha; apply Hb; now right).
      destruct (str_eqb arg (lit "--json")); [now apply IH|].
      destruct (str_eqb arg (lit "--puppeteer")); [now apply IH|].
      destruct (str_eqb arg (lit "--help") || str_eqb arg (lit "-h"));
        [reflexivity | now apply IH].
  - intros opt Ho; simpl in Ho.
    destruct Ho as [<- | [<- | [<- | [<- | [<- | []]]]]];
      eexists; reflexivity.
  - intros rest; repeat split.
Qed.

Lemma help_witness :
  parseLoop noOptions ([lit "--json"; lit "x"] ++ lit "-h" :: [lit "--url1"])
  = Exits 0 HelpPrinted
  /\ parseLoop noOptions [lit "--model"; lit "-h"]
     = Returns (mkOptions None None None None None None (Some (lit "-h")))
  /\ parseLoop noOptions [lit "--url1"; lit "-h"; lit "--json"]
     = Returns (mkOptions (Some (lit "-h")) None None None (Some true) None
                  None).
Proof.
  destruct (@help_exits_unless_taken_as_value noOptions
              [lit "--json"; lit "x"] [lit "--url1"] (lit "-h"))
    as [H1 [_ H3]].
  - intros a [<- | [<- | []]]; vm_compute; intuition discriminate.
  - right; left; reflexivity.
  - split; [exact H1 | split].
    + exact (proj2 (proj2 (proj2 (proj2 (H3 []))))).
    + exact (proj1 (H3 [lit "--json"])).
Defined.

(** ** Properties of the OpenAI client set-up *)

(** X16 (model of the request). [createAzureOpenAIClient], and with it
    [evaluateDifferences], throws the missing-configuration error when
    one of the four environment variables is unset or empty, and only
    then. With the four set, the client is built from them, its base URL
    the endpoint followed by "/openai/deployments/" and the deployment,
    and the model [evaluateDifferences] asks for is the [model] argument
    when that is a non-empty string, and else the value of
    AZURE_OPENAI_DEPLOYMENT: the default "gpt-4o" of the source never
    decides the model. *)
Theorem requestModel_from_argument_or_environment (env : Env)
    (model : option jsstring) :
  match requestModel env model with
  | Value m =>
      (isSet model = true /\ model = Some m)
      \/ (isSet model = false
          /\ env (lit "AZURE_OPENAI_DEPLOYMENT") = Some m /\ m <> [])
  | Throw message =>
      message = missingConfiguration
      /\ exists name,
           In name [lit "AZURE_OPENAI_ENDPOINT"; lit "AZURE_OPENAI_API_KEY";
                    lit "AZURE_OPENAI_DEPLOYMENT";
                    lit "AZURE_OPENAI_API_VERSION"]
           /\ isSet (env name) = false
  end
  /\ ((exists name,
         In name [lit "AZURE_OPENAI_ENDPOINT"; lit "AZURE_OPENAI_API_KEY";
                  lit "AZURE_OPENAI_DEPLOYMENT";
                  lit "AZURE_OPENAI_API_VERSION"]
         /\ isSet (env name) = false) ->
      createAzureOpenAIClient env = Throw missingConfiguration
      /\ requestModel env model = Throw missingConfiguration)
  /\ forall endpoint key deployment version,
       env (lit "AZURE_OPENAI_ENDPOINT") = Some endpoint -> endpoint <> [] ->
       env (lit "AZURE_OPENAI_API_KEY") = Some key -> key <> [] ->
       env (lit "AZURE_OPENAI_DEPLOYMENT") = Some deployment ->
       deployment <> [] ->
       env (lit "AZURE_OPENAI_API_VERSION") = Some version -> version <> [] ->
       createAzureOpenAIClient env
       = Value (mkClientConfig key
                  (endpoint ++ lit "/openai/deployments/" ++ deployment)
                  (lit "api-version", version) (lit "api-key", key))
       /\ requestModel env model
          = Value (if isSet model then show model else deployment).
Proof.
  split; [|split].
  - unfold requestModel, createAzureOpenAIClient.
    destruct (isSet (env (lit "AZURE_OPENAI_ENDPOINT"))) eqn:E1;
      [|cbn; split; [reflexivity | eexists; split; [|exact E1]; simpl; auto]].
    destruct (isSet (env (lit "AZURE_OPENAI_API_KEY"))) eqn:E2;
      [|cbn; split; [reflexivity | eexists; split; [|exact E2]; simpl; auto]].
    destruct (isSet (env (lit "AZURE_OPENAI_DEPLOYMENT"))) eqn:E3;
      [|cbn; split; [reflexivity | eexists; split; [|exact E3]; simpl; auto]].
    destruct (isSet (env (lit "AZURE_OPENAI_API_VERSION"))) eqn:E4;
      [|cbn; split; [reflexivity
                    | eexists; split; [|exact E4]; simpl; auto 6]].
    cbn [negb orb]; unfold orElse; rewrite E3.
    destruct (isSet model) eqn:Em.
    + left; split; [reflexivity|].
      destruct model as [m|]; [reflexivity | discriminate Em].
    + right; split; [reflexivity|].
      destruct (env (lit "AZURE_OPENAI_DEPLOYMENT")) as [d|];
        [|discriminate E3].
      split; [reflexivity | now apply truthy_nonempty].
  - intros [name [Hin Hunset]].
    assert (Hc : createAzureOpenAIClient env = Throw missingConfiguration).
    { unfold createAzureOpenAIClient.
      destruct Hin as [<- | [<- | [<- | [<- | []]]]]; rewrite Hunset; cbn;
        rewrite ?orb_true_r; reflexivity. }
    split; [exact Hc | unfold requestModel; now rewrite Hc].
  - intros endpoint key deployment version He He' Hk Hk' Hd Hd' Hv Hv'.
    assert (Hc : createAzureOpenAIClient env
                 = Value (mkClientConfig key
                            (endpoint ++ lit "/openai/deployments/"
                             ++ deployment)
                            (lit "api-version", version)
                            (lit "api-key", key))).
    { unfold createAzureOpenAIClient; rewrite He, Hk, Hd, Hv.
      destruct endpoint, key, deployment, version; try contradiction;
        reflexivity. }
    split; [exact Hc|].
    unfold requestModel; rewrite Hc, Hd; unfold orElse.
    destruct deployment; [contradiction|]; cbn [isSet truthy].
    now destruct (isSet model).
Qed.

Lemma requestModel_witness :
  let env : Env :=
    fun name =>
      if str_eqb name (lit "AZURE_OPENAI_ENDPOINT") then Some (lit "https://x")
      else if str_eqb name (lit "AZURE_OPENAI_API_KEY") then Some (lit "k")
      else if str_eqb name (lit "AZURE_OPENAI_DEPLOYMENT")
           then Some (lit "gpt-4o-mini")
      else if str_eqb name (lit "AZURE_OPENAI_API_VERSION")
           then Some (lit "2025-01-01-preview")
      else None in
  createAzureOpenAIClient env
  = Value (mkClientConfig (lit "k")
             (lit "https://x/openai/deployments/gpt-4o-mini")
             (lit "api-version", lit "2025-01-01-preview")
             (lit "api-key", lit "k"))
  /\ requestModel env None = Value (lit "gpt-4o-mini")
  /\ requestModel (fun _ => None) (Some (lit "gpt-4o"))
     = Throw missingConfiguration.
Proof.
  cbn zeta; split; [|split].
  - refine (proj1 (proj2 (proj2 (requestModel_from_argument_or_environment
                                   _ None))
                     (lit "https://x") (lit "k") (lit "gpt-4o-mini")
                     (lit "2025-01-01-preview") eq_refl _ eq_refl _ eq_refl _
                     eq_refl _)); discriminate.
  - refine (proj2 (proj2 (proj2 (requestModel_from_argument_or_environment
                                   _ None))
                     (lit "https://x") (lit "k") (lit "gpt-4o-mini")
                     (lit "2025-01-01-preview") eq_refl _ eq_refl _ eq_refl _
                     eq_refl _)); discriminate.
  - apply (proj1 (proj2 (requestModel_from_argument_or_environment
                           (fun _ => None) (Some (lit "gpt-4o"))))).
    exists (lit "AZURE_OPENAI_ENDPOINT"); split; [now left | reflexivity].
Defined.
